(** * MultiSlider: handle-value reconciliation, prop validation and
      the windowOverride context validator

    A shallow embedding of [packages/core/src/components/slider/multiSlider.tsx]
    and of the two [windowOverride] context validators, with the properties
    the specification states about them.

    Conventions of the embedding.
    - In the reconciliation, the scan for locks, the validation, the search
      for the nearest handle and the running condition of the label loop a
      JavaScript [number] is an exact rational ([Q]); [===] is [Qeq_bool],
      [<=] is [Qle_bool].  [NaN] and the infinities are outside that
      domain.
    - In the value-to-pixel code (tick size, offset ratios, label offsets) a
      [number] is a binary64 value ([spec_float], with [NaN], infinities
      and rounding): module [Doubles].
    - An array is a [list]; [a[i]] is stdpp's lookup [a !! i], whose [None]
      is JavaScript's [undefined].
    - A method that can throw returns an [outcome]; a loop that is not
      structurally recursive takes fuel, and its theorems show that the
      fuel the caller passes is enough.
    - Callbacks supplied by the parent are opaque; invoking one is recorded
      as an entry of a trace.
    - Module [Store] embeds the reconciliation once more, on a heap of
      arrays that are handed on by reference and changed in place, next to
      the component's props, its state and the trace of calls. *)

From Stdlib Require Import QArith Qminmax Qabs Lqa ZArith Lia List.
From Stdlib Require Import Floats.SpecFloat.
From Stdlib Require Import Sorting.Sorted Sorting.Permutation.
From stdpp Require Import base list.

Set Default Proof Using "Type".

(** ** Numbers, errors and outcomes *)

Abbreviation number := Q (only parsing).

(** [left - right < 0], [a <= b] and [a === b] on numbers. *)
Definition num_le (a b : number) : bool := Qle_bool a b.
Definition num_lt (a b : number) : bool := negb (Qle_bool b a).
Definition num_eq (a b : number) : bool := Qeq_bool a b.

(** The messages of [common/errors] are identified by the name of their
    constant; [TypeError] is the engine's error for a property read on
    [undefined]. *)
Inductive Error : Type :=
  | SLIDER_ZERO_STEP
  | SLIDER_ZERO_LABEL_STEP
  | MULTISLIDER_INVALID_CHILD
  | WINDOW_OVERRIDE_CONTEXT_UNEXPECTED_TYPE
  | WINDOW_OVERRIDE_CONTEXT_CLASS_NAME_STRING
  | TypeError.

Inductive outcome (A : Type) : Type :=
  | Returns (a : A)
  | Throws (e : Error)
  | OutOfFuel.
Arguments Returns {A} a.
Arguments Throws {A} e.
Arguments OutOfFuel {A}.

Definition bind {A B} (m : outcome A) (k : A -> outcome B) : outcome B :=
  match m with
  | Returns a => k a
  | Throws e => Throws e
  | OutOfFuel => OutOfFuel
  end.

(** ** Handle props and slider props *)

(** Modelled from the spec: [handleProps.ts] is not among the sources.  The
    interaction kinds are the ones the slider tests for ([PUSH], [NONE]) and
    the locking kind the specification names. *)
Inductive HandleInteractionKind : Type := LOCK | PUSH | NONE.

#[global] Instance HandleInteractionKind_eq_dec :
  EqDecision HandleInteractionKind.
Proof. solve_decision. Defined.

(** A callback value handed in by the parent component. *)
Definition Callback : Type := nat.

(** Modelled from the spec: [IHandleProps] of [handleProps.ts], restricted to
    the fields [multiSlider.tsx] reads in the code embedded here.  Optional
    props are [option]s, [None] being [undefined]. *)
Record IHandleProps : Type := {
  value : number;
  interactionKind : option HandleInteractionKind;
  handle_onChange : option Callback;
  handle_onRelease : option Callback
}.

(** A child of the slider as [React.Children] presents it: nothing ([null],
    [undefined], a boolean), an element of type [MultiSlider.Handle] with its
    props, or any other truthy child. *)
Inductive Child : Type :=
  | ChildEmpty
  | ChildHandle (props : IHandleProps)
  | ChildOther.

(** The [labelRenderer] prop: [false], [true] (or absent), or a function. *)
Inductive LabelRenderer : Type :=
  | LabelsOff
  | LabelsDefault
  | LabelsCustom.

(** [IMultiSliderProps] together with [children], after React has filled in
    [defaultProps]. *)
Record IMultiSliderProps : Type := {
  disabled : bool;
  labelStepSize : number;
  labelRenderer : LabelRenderer;
  max : number;
  min : number;
  stepSize : number;
  vertical : bool;
  onChange : option Callback;
  onRelease : option Callback;
  children : list Child
}.

(** [ISliderState], without [labelPrecision], which only [formatLabel]
    reads. *)
Record ISliderState : Type := {
  tickSize : number;
  tickSizeRatio : number
}.

(** The state a component is constructed with. *)
Definition initial_state : ISliderState :=
  {| tickSize := 0%Q; tickSizeRatio := 0%Q |}.

(** ** Arrays *)

(** [Array.prototype.sort(compareFn)]: a stable sort, here by insertion.
    [x] is placed before the first [y] with [compareFn x y <= 0]. *)
Fixpoint sort_insert {A} (compareFn : A -> A -> number) (x : A) (l : list A)
  : list A :=
  match l with
  | [] => [x]
  | y :: l' =>
      if num_le (compareFn x y) 0%Q then x :: y :: l'
      else y :: sort_insert compareFn x l'
  end.

Definition array_sort {A} (compareFn : A -> A -> number) (l : list A)
  : list A :=
  foldr (sort_insert compareFn) [] l.

(** [a.indexOf(x)] on an array of numbers: the first index holding [x], or
    [-1]. *)
Fixpoint indexOf_from (a : list number) (x : number) (i : Z) : Z :=
  match a with
  | [] => (-1)%Z
  | y :: a' => if num_eq y x then i else indexOf_from a' x (i + 1)%Z
  end.

Definition indexOf (a : list number) (x : number) : Z := indexOf_from a x 0.

(** [a[i]] for an integer [i]: [undefined] below zero and at or past the
    length. *)
Definition array_get {A} (a : list A) (i : Z) : option A :=
  if (i <? 0)%Z then None else a !! Z.to_nat i.

(** [a[i] = x] for [0 <= i <= a.length]: replaces in range and appends at
    the length.  Past the length JavaScript would leave holes, which a list
    cannot hold; [getNewHandleValues], the one caller, has raised before it
    would write there. *)
Definition array_set {A} (a : list A) (i : nat) (x : A) : list A :=
  if (i <? length a)%nat then <[i := x]> a
  else if (i =? length a)%nat then a ++ [x]
  else a.

(** ** Sorted handle props (lines 453-468) *)

Definition getSortedHandleProps (props : IMultiSliderProps)
    (predicate : IHandleProps -> bool) : list IHandleProps :=
  let maybeHandles :=
    map (fun child =>
           match child with
           | ChildHandle p => if predicate p then Some p else None
           | _ => None
           end) (children props) in
  let handles := omap id maybeHandles in
  array_sort (fun left right => (value left - value right)%Q) handles.

Definition is_interactive (childProps : IHandleProps) : bool :=
  match interactionKind childProps with
  | Some NONE => false
  | _ => true
  end.

Definition getSortedInteractiveHandleProps (props : IMultiSliderProps)
  : list IHandleProps :=
  getSortedHandleProps props is_interactive.

(** ** Helpers of [sliderUtils] and [common/utils] *)

(** Modelled from the spec: [fillValues] of [sliderUtils.ts] is not among
    the sources.  It sets every entry of [values] between [startIndex] and
    [endIndex], both ends included and in either order, to [fillValue]; the
    other entries are left as they are.  An index from the length on is
    written the way an assignment writes it, and the array grows up to the
    far end of the stretch.  Were the stretch to begin past the length, the
    entries in between would be holes, which a list cannot hold: the array
    then keeps its length. *)
Definition fillValues {A} (values : list A) (startIndex endIndex : Z)
    (fillValue : A) : list A :=
  let first := Z.min startIndex endIndex in
  let last := Z.max startIndex endIndex in
  let len := Z.of_nat (length values) in
  imap (fun i x =>
          if ((first <=? Z.of_nat i)%Z && (Z.of_nat i <=? last)%Z)%bool
          then fillValue else x) values
  ++ (if ((first <=? len)%Z && (len <=? last)%Z)%bool
      then replicate (Z.to_nat (last - len + 1)) fillValue
      else []).

(** Modelled from the spec: [argMin] of [sliderUtils.ts] is not among the
    sources.  It returns the element of [values] whose [argFn] is least, the
    first one among equals, and [undefined] for an empty array. *)
Fixpoint argMin_from {T} (argFn : T -> number) (minValue : T)
    (values : list T) : T :=
  match values with
  | [] => minValue
  | v :: values' =>
      if num_lt (argFn v) (argFn minValue)
      then argMin_from argFn v values'
      else argMin_from argFn minValue values'
  end.

Definition argMin {T} (values : list T) (argFn : T -> number) : option T :=
  match values with
  | [] => None
  | v :: values' => Some (argMin_from argFn v values')
  end.

(** Modelled from the spec: [Utils.arraysEqual] is not among the sources.
    Two arrays are equal when they have the same length and [===] entries. *)
Fixpoint arraysEqual (arrA arrB : list number) : bool :=
  match arrA, arrB with
  | [], [] => true
  | a :: arrA', b :: arrB' => num_eq a b && arraysEqual arrA' arrB'
  | _, _ => false
  end.

(** ** Callback traces *)

(** One call of a callback of the parent: which prop was invoked, the
    function it held and the argument; for a handle's own callback also the
    sorted index of the handle.  [None] as a value is [undefined]. *)
Inductive Invocation : Type :=
  | SliderOnChange (cb : Callback) (values : list number)
  | SliderOnRelease (cb : Callback) (values : list number)
  | HandleOnChange (index : nat) (cb : Callback) (v : option number)
  | HandleOnRelease (index : nat) (cb : Callback) (v : option number).

(** [Utils.safeInvoke(callback, arg)]: calls [callback] when it is defined. *)
Definition safeInvoke {A} (callback : option A) (call : A -> Invocation)
  : list Invocation :=
  match callback with
  | Some cb => [call cb]
  | None => []
  end.

(** [a !== b] where either side may be [undefined]. *)
Definition strict_neq (a b : option number) : bool :=
  match a, b with
  | Some x, Some y => negb (num_eq x y)
  | None, None => false
  | _, _ => true
  end.

(** ** Prop validation (lines 195-213) *)

Definition is_invalid_child (child : Child) : bool :=
  match child with
  | ChildOther => true
  | _ => false
  end.

Definition validateProps (props : IMultiSliderProps) : outcome unit :=
  if num_le (stepSize props) 0%Q then Throws SLIDER_ZERO_STEP
  else if num_le (labelStepSize props) 0%Q then Throws SLIDER_ZERO_LABEL_STEP
  else
    let anyInvalidChildren :=
      foldl (fun acc child => if is_invalid_child child then true else acc)
            false (children props) in
    if anyInvalidChildren then Throws MULTISLIDER_INVALID_CHILD
    else Returns tt.

(** ** Reconciliation of handle values (lines 361-420) *)

Definition is_push (h : IHandleProps) : bool :=
  match interactionKind h with
  | Some PUSH => true
  | _ => false
  end.

(** The body of the [for] loop of [findFirstLockedHandleIndex], entered with
    the current [index]. *)
Fixpoint findFirstLocked_loop (handleProps : list IHandleProps)
    (inc endIndex : Z) (fuel : nat) (index : Z) : outcome Z :=
  match fuel with
  | O => OutOfFuel
  | S fuel' =>
      if (index =? endIndex + inc)%Z then Returns (-1)%Z
      else
        match array_get handleProps index with
        | None => Throws TypeError
        | Some h =>
            if negb (is_push h) then Returns index
            else findFirstLocked_loop handleProps inc endIndex fuel'
                                      (index + inc)%Z
        end
  end.

Definition findFirstLockedHandleIndex (props : IMultiSliderProps)
    (startIndex endIndex : Z) : outcome Z :=
  let inc := if (startIndex <? endIndex)%Z then 1%Z else (-1)%Z in
  let handleProps := getSortedInteractiveHandleProps props in
  findFirstLocked_loop handleProps inc endIndex
    (S (Z.to_nat (Z.abs (endIndex - startIndex)))) (startIndex + inc)%Z.

(** [oldIndex] is the index [renderHandles] bound the handler to.  Past the
    length of the handle list the write [newValues[oldIndex] = newValue]
    leaves holes, the sort moves them behind the numbers, [indexOf] is at
    most the old length, and the downward scan starts by reading
    [handleProps[oldIndex - 1]], which is [undefined]: a [TypeError]. *)
Definition getNewHandleValues (props : IMultiSliderProps) (newValue : number)
    (oldIndex : nat) : outcome (list number) :=
  let handleProps := getSortedInteractiveHandleProps props in
  let oldValues := map value handleProps in
  if (length oldValues <? oldIndex)%nat then Throws TypeError
  else
    let newValues :=
      array_sort (fun left right => (left - right)%Q)
                 (array_set oldValues oldIndex newValue) in
    let newIndex := indexOf newValues newValue in
    bind (findFirstLockedHandleIndex props (Z.of_nat oldIndex) newIndex)
      (fun lockIndex =>
         if (lockIndex =? -1)%Z then
           Returns (fillValues newValues (Z.of_nat oldIndex) newIndex newValue)
         else
           match array_get oldValues lockIndex with
           | Some lockValue =>
               Returns (fillValues oldValues (Z.of_nat oldIndex) lockIndex
                                   lockValue)
           | None => Throws TypeError (* not reached: the scan has read
                                         [handleProps[lockIndex]] *)
           end).

Definition handleChange (props : IMultiSliderProps) (newValues : list number)
  : list Invocation :=
  let handleProps := getSortedInteractiveHandleProps props in
  let oldValues := map value handleProps in
  if negb (arraysEqual newValues oldValues) then
    safeInvoke (onChange props) (fun cb => SliderOnChange cb newValues)
    ++ concat (imap (fun index handle =>
                       if strict_neq (oldValues !! index) (newValues !! index)
                       then safeInvoke (handle_onChange handle)
                              (fun cb => HandleOnChange index cb
                                           (newValues !! index))
                       else []) handleProps)
  else [].

Definition handleRelease (props : IMultiSliderProps)
    (newValues : list number) : list Invocation :=
  let handleProps := getSortedInteractiveHandleProps props in
  safeInvoke (onRelease props) (fun cb => SliderOnRelease cb newValues)
  ++ concat (imap (fun index handle =>
                     safeInvoke (handle_onRelease handle)
                       (fun cb => HandleOnRelease index cb
                                    (newValues !! index))) handleProps).

(** The handler [renderHandles] installs on the handle at [index]. *)
Definition getHandlerForIndex (props : IMultiSliderProps) (index : nat)
    (callback : option (IMultiSliderProps -> list number -> list Invocation))
    (newValue : number) : outcome (list Invocation) :=
  bind (getNewHandleValues props newValue index)
    (fun values =>
       match callback with
       | Some f => Returns (f props values)
       | None => Returns []
       end).

(** ** The label loop (lines 226-250) *)

(** The loop over exact numbers, for what its running condition decides.
    The offsets it computes on binary64 numbers are in [Doubles]. *)

(** One label of the axis: its key [i] and the ratio handed to
    [formatPercentage]. *)
Record Label : Type := {
  label_key : number;
  label_offset : number
}.

Section labels.
(** [Utils.approxEqual] is not among the sources and the specification
    does not describe it: it is a parameter of [renderLabels]. *)
Variable approxEqual : number -> number -> bool.

(** The [for] loop of [renderLabels], entered with the current [i] and
    [offsetRatio]: the labels pushed within [fuel] iterations, and whether
    the loop has come to its end. *)
Fixpoint renderLabels_loop (props : IMultiSliderProps)
    (stepSizeRatio : number) (fuel : nat) (i offsetRatio : number)
  : list Label * bool :=
  match fuel with
  | O => ([], false)
  | S fuel' =>
      if num_lt i (max props) || approxEqual i (max props) then
        let '(labels, finished) :=
          renderLabels_loop props stepSizeRatio fuel'
            (i + labelStepSize props)%Q (offsetRatio + stepSizeRatio)%Q in
        ({| label_key := i; label_offset := offsetRatio |} :: labels,
         finished)
      else ([], true)
  end.

End labels.

(** ** Nearest handle on a track click (lines 324-359) *)

(** What the slider reads from a mouse or touch event: whether the target
    lies inside a handle element. *)
Record TrackEvent : Type := {
  target_in_handle : bool
}.

(** Modelled from the spec: the [Handle] component of [handle.tsx] is not
    among the sources.  A mounted handle offers its [value] prop, the
    conversion of a client offset to a value and the client offset of an
    event. *)
Record Handle : Type := {
  handle_value : number;
  clientToValue : number -> number;
  mouseEventClientOffset : TrackEvent -> number;
  touchEventClientOffset : TrackEvent -> number
}.

Definition canHandleTrackEvent (props : IMultiSliderProps)
    (event : TrackEvent) : bool :=
  negb (disabled props) && negb (target_in_handle event).

(** The distance [nearestHandleForValue] minimises. *)
Definition handle_distance (getOffset : Handle -> number) (handle : Handle)
  : number :=
  let offset := getOffset handle in
  let offsetValue := clientToValue handle offset in
  let handleValue := handle_value handle in
  Qabs (offsetValue - handleValue).

Definition nearestHandleForValue (handles : list Handle)
    (getOffset : Handle -> number) : option Handle :=
  argMin handles (handle_distance getOffset).

(** The handle on which [beginHandleMovement(event)] is called, if any. *)
Definition maybeHandleTrackClick (props : IMultiSliderProps)
    (handleElements : list Handle) (event : TrackEvent) : option Handle :=
  if canHandleTrackEvent props event then
    nearestHandleForValue handleElements
      (fun handle => mouseEventClientOffset handle event)
  else None.

(** The handle on which [beginHandleTouchMovement(event)] is called, if
    any. *)
Definition maybeHandleTrackTouch (props : IMultiSliderProps)
    (handleElements : list Handle) (event : TrackEvent) : option Handle :=
  if canHandleTrackEvent props event then
    nearestHandleForValue handleElements
      (fun handle => touchEventClientOffset handle event)
  else None.

(** ** The windowOverride context validators *)

(** A member of the supplied window object, as far as [== null] can tell. *)
Inductive Member : Type := MUndefined | MNull | MPresent.

Definition is_nullish (m : Member) : bool :=
  match m with
  | MPresent => false
  | _ => true
  end.

Record Window : Type := {
  document : Member;
  location : Member;
  alert : Member;
  setInterval : Member
}.

(** The [windowOverride] entry of the context object. *)
Inductive WindowOverride : Type :=
  | WindowUndefined
  | WindowNull
  | WindowObject (w : Window).

Record IWindowOverrideContext : Type := {
  windowOverride : WindowOverride
}.

(** [windowOverrideContextTypes.windowOverride] (part_000, lines 25-36).
    [key] ranges over the keys of [IWindowOverrideContext], of which there is
    one, so [obj[key]] is [obj.windowOverride]. *)
Definition windowOverrideContextTypes (obj : IWindowOverrideContext)
  : option Error :=
  let value := windowOverride obj in
  match value with
  | WindowObject w =>
      if is_nullish (document w) || is_nullish (location w)
         || is_nullish (alert w) || is_nullish (setInterval w)
      then Some WINDOW_OVERRIDE_CONTEXT_UNEXPECTED_TYPE
      else None
  | WindowUndefined | WindowNull => None
  end.

(** [WINDOW_OVERRIDE_REACT_CONTEXT_TYPES.windowOverride] (lines 493-501). *)
Definition WINDOW_OVERRIDE_REACT_CONTEXT_TYPES (obj : IWindowOverrideContext)
  : option Error :=
  let variable := windowOverride obj in
  match variable with
  | WindowObject w =>
      if is_nullish (document w) || is_nullish (location w)
         || is_nullish (alert w) || is_nullish (setInterval w)
      then Some WINDOW_OVERRIDE_CONTEXT_CLASS_NAME_STRING
      else None
  | WindowUndefined | WindowNull => None
  end.

(** ** The reconciliation on a store of arrays (lines 367-399, 453-468) *)

Module Store.

(** The arrays of a run live on a heap and are handed around by reference,
    as JavaScript hands them around: [sort], an assignment to an index and
    [fillValues] change the array they are given.  A reference is the
    position of the array on the heap; a new array goes behind the ones
    that exist. *)
Definition ref : Type := nat.

Inductive Object : Type :=
  | Numbers (a : list number)
  | Handles (a : list IHandleProps)
  | MaybeHandles (a : list (option IHandleProps)).

(** What a method of the component can read and change: the heap, the
    component's [props] and [state], and the calls made so far to the
    callbacks of the parent component. *)
Record World : Type := {
  heap : list Object;
  this_props : IMultiSliderProps;
  this_state : ISliderState;
  calls : list Invocation
}.

Definition with_heap (w : World) (h : list Object) : World :=
  {| heap := h; this_props := this_props w; this_state := this_state w;
     calls := calls w |}.

(** A computation from a world: it returns a value and the world it leaves,
    or throws. *)
Definition M (A : Type) : Type := World -> outcome (A * World).

Definition ret {A} (a : A) : M A := fun w => Returns (a, w).

Definition raise {A} (e : Error) : M A := fun _ => Throws e.

Definition mbind {A B} (m : M A) (k : A -> M B) : M B :=
  fun w =>
    match m w with
    | Returns (a, w') => k a w'
    | Throws e => Throws e
    | OutOfFuel => OutOfFuel
    end.

Notation "'let!' x ':=' m 'in' k" := (mbind m (fun x => k))
  (at level 10, x name, m at level 100, k at level 200).

(** [this.props]. *)
Definition get_props : M IMultiSliderProps :=
  fun w => Returns (this_props w, w).

(** A new array. *)
Definition alloc (o : Object) : M ref :=
  fun w => Returns (length (heap w), with_heap w (heap w ++ [o])).

(** The contents of the array behind a reference. *)
Definition read_numbers (r : ref) : M (list number) :=
  fun w =>
    match heap w !! r with
    | Some (Numbers a) => Returns (a, w)
    | _ => Throws TypeError
    end.

Definition read_handles (r : ref) : M (list IHandleProps) :=
  fun w =>
    match heap w !! r with
    | Some (Handles a) => Returns (a, w)
    | _ => Throws TypeError
    end.

Definition read_maybe_handles (r : ref) : M (list (option IHandleProps)) :=
  fun w =>
    match heap w !! r with
    | Some (MaybeHandles a) => Returns (a, w)
    | _ => Throws TypeError
    end.

(** A change to the array behind a reference. *)
Definition write (r : ref) (o : Object) : M unit :=
  fun w => Returns (tt, with_heap w (<[r := o]> (heap w))).

(** [React.Children.map] makes an array, [filter] makes another, [sort]
    sorts that one where it is. *)
Definition getSortedHandleProps (props : IMultiSliderProps)
    (predicate : IHandleProps -> bool) : M ref :=
  let! maybeHandles :=
    alloc (MaybeHandles
             (map (fun child =>
                     match child with
                     | ChildHandle p => if predicate p then Some p else None
                     | _ => None
                     end) (children props))) in
  let! a := read_maybe_handles maybeHandles in
  let! handles := alloc (Handles (omap id a)) in
  let! a := read_handles handles in
  let! _ :=
    write handles
      (Handles
         (array_sort (fun left right => (value left - value right)%Q) a)) in
  ret handles.

Definition getSortedInteractiveHandleProps (props : IMultiSliderProps)
  : M ref :=
  getSortedHandleProps props is_interactive.

Fixpoint findFirstLocked_loop (handleProps : ref) (inc endIndex : Z)
    (fuel : nat) (index : Z) : M Z :=
  match fuel with
  | O => fun _ => OutOfFuel
  | S fuel' =>
      if (index =? endIndex + inc)%Z then ret (-1)%Z
      else
        let! a := read_handles handleProps in
        match array_get a index with
        | None => raise TypeError
        | Some h =>
            if negb (is_push h) then ret index
            else findFirstLocked_loop handleProps inc endIndex fuel'
                                      (index + inc)%Z
        end
  end.

Definition findFirstLockedHandleIndex (startIndex endIndex : Z) : M Z :=
  let inc := if (startIndex <? endIndex)%Z then 1%Z else (-1)%Z in
  let! props := get_props in
  let! handleProps := getSortedInteractiveHandleProps props in
  findFirstLocked_loop handleProps inc endIndex
    (S (Z.to_nat (Z.abs (endIndex - startIndex)))) (startIndex + inc)%Z.

(** Modelled from the spec: [fillValues] of [sliderUtils.ts] is not among
    the sources.  It fills the array it is given, where it is. *)
Definition fillValues (values : ref) (startIndex endIndex : Z)
    (fillValue : number) : M unit :=
  let! a := read_numbers values in
  write values (Numbers (fillValues a startIndex endIndex fillValue)).

(** [map] and [slice] make arrays; the assignment to [newValues[oldIndex]],
    [sort] and [fillValues] change the array they are given.  An [oldIndex]
    past the length ends in a [TypeError], as in the function above. *)
Definition getNewHandleValues (newValue : number) (oldIndex : nat) : M ref :=
  let! props := get_props in
  let! handleProps := getSortedInteractiveHandleProps props in
  let! a := read_handles handleProps in
  let! oldValues := alloc (Numbers (map value a)) in
  let! a := read_numbers oldValues in
  let! newValues := alloc (Numbers a) in
  let! a := read_numbers newValues in
  if (length a <? oldIndex)%nat then raise TypeError
  else
    let! _ := write newValues (Numbers (array_set a oldIndex newValue)) in
    let! a := read_numbers newValues in
    let! _ :=
      write newValues
        (Numbers (array_sort (fun left right => (left - right)%Q) a)) in
    let! a := read_numbers newValues in
    let newIndex := indexOf a newValue in
    let! lockIndex :=
      findFirstLockedHandleIndex (Z.of_nat oldIndex) newIndex in
    if (lockIndex =? -1)%Z then
      let! _ :=
        fillValues newValues (Z.of_nat oldIndex) newIndex newValue in
      ret newValues
    else
      let! a := read_numbers oldValues in
      match array_get a lockIndex with
      | Some lockValue =>
          let! _ :=
            fillValues oldValues (Z.of_nat oldIndex) lockIndex lockValue in
          ret oldValues
      | None => raise TypeError
      end.

(** A run has left a world untouched when the props, the state and the
    calls to the callbacks are what they were and every array that existed
    is what it was: the heap has only grown. *)
Definition untouched (before after : World) : Prop :=
  this_props after = this_props before
  /\ this_state after = this_state before
  /\ calls after = calls before
  /\ exists created, heap after = heap before ++ created.

End Store.

(** ** The value-to-pixel code on binary64 numbers
       (lines 226-285, 422-445) *)

Module Doubles.

Definition prec : Z := 53.
Definition emax : Z := 1024.

(** [x + y], [x - y], [x * y], [x / y], [x < y] and [x <= y] on doubles. *)
Definition add (x y : spec_float) : spec_float := SFadd prec emax x y.
Definition sub (x y : spec_float) : spec_float := SFsub prec emax x y.
Definition mul (x y : spec_float) : spec_float := SFmul prec emax x y.
Definition div (x y : spec_float) : spec_float := SFdiv prec emax x y.
Definition lt (x y : spec_float) : bool := SFltb x y.
Definition le (x y : spec_float) : bool := SFleb x y.

Definition is_nan (x : spec_float) : bool :=
  match x with
  | S754_nan => true
  | _ => false
  end.

Definition zero : spec_float := S754_zero false.
Definition one : spec_float := Eval vm_compute in SFone prec emax.

(** The double of an integer, exact below 2^53. *)
Definition of_Z (z : Z) : spec_float := binary_normalize prec emax z 0 false.

(** [Math.max(x, y)] and [Math.min(x, y)]: [NaN] when either is [NaN], and
    [+0] counts as larger than [-0]. *)
Definition Math_max (x y : spec_float) : spec_float :=
  if is_nan x || is_nan y then S754_nan
  else if lt x y then y
  else if lt y x then x
  else match x, y with
       | S754_zero true, S754_zero false => y
       | _, _ => x
       end.

Definition Math_min (x y : spec_float) : spec_float :=
  if is_nan x || is_nan y then S754_nan
  else if lt x y then x
  else if lt y x then y
  else match x, y with
       | S754_zero false, S754_zero true => y
       | _, _ => x
       end.

(** Modelled from the spec: [Utils.clamp] is not among the sources.  The
    value is clamped to the interval from [lo] to [hi], by [Math.max] and
    [Math.min]. *)
Definition clamp (val lo hi : spec_float) : spec_float :=
  Math_min (Math_max val lo) hi.

(** [Array.prototype.sort(compareFn)] with a comparator that returns a
    double: a stable sort, here by insertion.  [x] goes behind [y] when
    [compareFn x y > 0]; a comparator result of [NaN] counts as [+0]. *)
Fixpoint sort_insert {A} (compareFn : A -> A -> spec_float) (x : A)
    (l : list A) : list A :=
  match l with
  | [] => [x]
  | y :: l' =>
      if lt zero (compareFn x y) then y :: sort_insert compareFn x l'
      else x :: y :: l'
  end.

Definition array_sort {A} (compareFn : A -> A -> spec_float) (l : list A)
  : list A :=
  foldr (sort_insert compareFn) [] l.

(** The props the value-to-pixel code reads. *)
Record IMultiSliderProps : Type := {
  labelRenderer : LabelRenderer;
  labelStepSize : spec_float;
  max : spec_float;
  min : spec_float;
  vertical : bool
}.

(** [ISliderState], without [labelPrecision]. *)
Record ISliderState : Type := {
  tickSize : spec_float;
  tickSizeRatio : spec_float
}.

(** The state a component is constructed with. *)
Definition unmounted_state : ISliderState :=
  {| tickSize := zero; tickSizeRatio := zero |}.

(** The track element, as far as [updateTickSize] reads it. *)
Record HTMLElement : Type := {
  clientHeight : spec_float;
  clientWidth : spec_float
}.

Definition getOffsetRatio (props : IMultiSliderProps) (state : ISliderState)
    (v : spec_float) : spec_float :=
  clamp (mul (sub v (min props)) (tickSizeRatio state)) zero one.

(** [setState({ tickSize, tickSizeRatio })], or nothing while the track
    element is not mounted. *)
Definition updateTickSize (props : IMultiSliderProps)
    (trackElement : option HTMLElement) (state : ISliderState)
  : ISliderState :=
  match trackElement with
  | Some el =>
      let trackSize :=
        if vertical props then clientHeight el else clientWidth el in
      let tickSizeRatio := div one (sub (max props) (min props)) in
      let tickSize := mul trackSize tickSizeRatio in
      {| tickSize := tickSize; tickSizeRatio := tickSizeRatio |}
  | None => state
  end.

(** [componentDidMount] and [componentDidUpdate] both end in
    [updateTickSize]; [render] has run before them, with the state as it
    was. *)
Definition componentDidMount (props : IMultiSliderProps)
    (trackElement : option HTMLElement) (state : ISliderState)
  : ISliderState :=
  updateTickSize props trackElement state.

Definition componentDidUpdate (props : IMultiSliderProps)
    (trackElement : option HTMLElement) (state : ISliderState)
  : ISliderState :=
  updateTickSize props trackElement state.

(** The two ratios [renderTrackFill] hands to [formatPercentage]: the offset
    of the near edge and the offset of the far edge from the other end. *)
Record TrackFill : Type := {
  startOffset : spec_float;
  endOffset : spec_float
}.

(** [start] and [end_] are the [value]s of the two track stops. *)
Definition renderTrackFill (props : IMultiSliderProps) (state : ISliderState)
    (start end_ : spec_float) : TrackFill :=
  let ratios :=
    array_sort (fun left right => sub left right)
      [getOffsetRatio props state start; getOffsetRatio props state end_] in
  match ratios with
  | [startRatio; endRatio] =>
      {| startOffset := startRatio; endOffset := sub one endRatio |}
  | _ => {| startOffset := zero; endOffset := zero |} (* not reached *)
  end.

Fixpoint renderTracks_loop (props : IMultiSliderProps) (state : ISliderState)
    (previous : spec_float) (trackStops : list spec_float)
  : list TrackFill :=
  match trackStops with
  | [] => []
  | current :: trackStops' =>
      renderTrackFill props state previous current
      :: renderTracks_loop props state current trackStops'
  end.

(** [handleValues] are the [value]s of [getSortedHandleProps(this.props)],
    the only thing [renderTracks] reads of the handles here. *)
Definition renderTracks (props : IMultiSliderProps) (state : ISliderState)
    (handleValues : list spec_float) : list TrackFill :=
  let trackStops := handleValues ++ [max props] in
  renderTracks_loop props state (min props) trackStops.

(** One label of the axis: its key [i] and the ratio handed to
    [formatPercentage]. *)
Record Label : Type := {
  label_key : spec_float;
  label_offset : spec_float
}.

Section label_loop.
(** [Utils.approxEqual] is not among the sources and the specification
    does not describe it: it is a parameter of [renderLabels]. *)
Variable approxEqual : spec_float -> spec_float -> bool.

(** The [for] loop of [renderLabels], entered with the current [i] and
    [offsetRatio]: the labels pushed within [fuel] iterations, and whether
    the loop has come to its end. *)
Fixpoint renderLabels_loop (props : IMultiSliderProps)
    (stepSizeRatio : spec_float) (fuel : nat) (i offsetRatio : spec_float)
  : list Label * bool :=
  match fuel with
  | O => ([], false)
  | S fuel' =>
      if lt i (max props) || approxEqual i (max props) then
        let '(labels, finished) :=
          renderLabels_loop props stepSizeRatio fuel'
            (add i (labelStepSize props)) (add offsetRatio stepSizeRatio) in
        ({| label_key := i; label_offset := offsetRatio |} :: labels,
         finished)
      else ([], true)
  end.

Definition renderLabels_pushed (props : IMultiSliderProps)
    (state : ISliderState) (fuel : nat) : list Label :=
  match labelRenderer props with
  | LabelsOff => []
  | _ =>
      let stepSizeRatio := mul (tickSizeRatio state) (labelStepSize props) in
      fst (renderLabels_loop props stepSizeRatio fuel (min props) zero)
  end.
End label_loop.

(** *** Vocabulary *)

(** A double between 0 and 1, both included. *)
Definition in_unit_interval (r : spec_float) : Prop :=
  le zero r = true /\ le r one = true.

(** A double that is [NaN] or lies between 0 and 1. *)
Definition unit_or_nan (r : spec_float) : Prop :=
  is_nan r = true \/ in_unit_interval r.

(** Every offset ratio of a render, of tracks and of labels, lies between 0
    and 1 on a slider with [max > min]: the labels taken as far as the loop
    has pushed them in [fuel] iterations. *)
Definition offsets_in_unit_interval
    (approxEqual : spec_float -> spec_float -> bool)
    (props : IMultiSliderProps) (state : ISliderState)
    (handleValues : list spec_float) (fuel : nat) : Prop :=
  lt (min props) (max props) = true ->
  (forall fill, fill ∈ renderTracks props state handleValues ->
                in_unit_interval (startOffset fill)
                /\ in_unit_interval (endOffset fill))
  /\ (forall label, label ∈ renderLabels_pushed approxEqual props state fuel ->
                    in_unit_interval (label_offset label)).

(** *** Sample sliders *)

Definition plain_slider (lo hi : spec_float) : IMultiSliderProps :=
  {| labelRenderer := LabelsDefault; labelStepSize := one;
     max := hi; min := lo; vertical := false |}.

(** A slider from 0 to 1, and the same slider after its parent has widened
    it to 0 to 3. *)
Definition narrow_slider : IMultiSliderProps := plain_slider zero one.
Definition wide_slider : IMultiSliderProps := plain_slider zero (of_Z 3).

(** A slider from 0 to the least positive double. *)
Definition tiny_slider : IMultiSliderProps :=
  plain_slider zero (S754_finite false 1 (-1074)).

(** A track element of 200 by 20 pixels. *)
Definition sample_track : HTMLElement :=
  {| clientHeight := of_Z 20; clientWidth := of_Z 200 |}.

End Doubles.

(** ** Vocabulary of the specification *)

(** Nondecreasing order of numbers and of handles by value. *)
Definition sorted_values (l : list number) : Prop := StronglySorted Qle l.

Definition value_le (a b : IHandleProps) : Prop := (value a <= value b)%Q.

Definition sorted_by_value (l : list IHandleProps) : Prop :=
  StronglySorted value_le l.

(** The props of the children that are [MultiSlider.Handle] elements, in the
    order of the children. *)
Definition child_handles (cs : list Child) : list IHandleProps :=
  omap (fun child =>
          match child with
          | ChildHandle p => Some p
          | _ => None
          end) cs.

(** [i] is visited by a scan that leaves [startIndex] and walks to
    [endIndex], the end included and the start not. *)
Definition in_scan (startIndex endIndex i : Z) : Prop :=
  (startIndex < i <= endIndex)%Z \/ (endIndex <= i < startIndex)%Z.

(** [i] lies strictly between [a] and [b], in either order. *)
Definition strictly_between (a b i : Z) : Prop :=
  (a < i < b)%Z \/ (b < i < a)%Z.

(** [i] lies between [a] and [b], both included, in either order. *)
Definition between (a b : Z) (i : nat) : bool :=
  ((Z.min a b <=? Z.of_nat i)%Z && (Z.of_nat i <=? Z.max a b)%Z)%bool.

(** The handle at [i] exists and its interaction kind is [PUSH]. *)
Definition push_at (handleProps : list IHandleProps) (i : Z) : Prop :=
  exists h, array_get handleProps i = Some h /\ interactionKind h = Some PUSH.

(** The handle at [i] exists and its interaction kind is not [PUSH]. *)
Definition locked_at (handleProps : list IHandleProps) (i : Z) : Prop :=
  exists h, array_get handleProps i = Some h /\ interactionKind h <> Some PUSH.

(** [j] is the first position of [l] that holds [v]. *)
Definition first_position (l : list number) (v : number) (j : nat) : Prop :=
  (exists x, l !! j = Some x /\ (x == v)%Q)
  /\ forall i y, (i < j)%nat -> l !! i = Some y -> ~ (y == v)%Q.

(** [r] is [l] with every entry between [a] and [b], both included, set to
    [v]. *)
Definition filled_with (l : list number) (a b : Z) (v : number)
    (r : list number) : Prop :=
  length r = length l
  /\ forall i x, l !! i = Some x ->
                 r !! i = Some (if between a b i then v else x).

(** The comparator [left.key - right.key] and the order it sorts into. *)
Definition by_key {A} (key : A -> number) (left right : A) : number :=
  (key left - key right)%Q.

Definition key_le {A} (key : A -> number) (x y : A) : Prop :=
  (key x <= key y)%Q.

(** What a drag of the handle at sorted index [k] to the value [v] returns,
    given which positions [inspected k j] are looked at for a handle that is
    not a push handle, [j] being the first position of [v] among the sorted
    updated values: without such a handle, the sorted values with the entries
    between [k] and [j] set to [v]; with one, the old values with the entries
    between [k] and the first such handle set to that handle's old value. *)
Definition reconciliation (inspected : Z -> Z -> Z -> Prop)
    (props : IMultiSliderProps) (v : number) (k : nat) : Prop :=
  let handleProps := getSortedInteractiveHandleProps props in
  let oldValues := map value handleProps in
  exists (sorted : list number) (j : nat) (r : list number),
    sorted ≡ₚ <[k := v]> oldValues
    /\ sorted_values sorted
    /\ first_position sorted v j
    /\ getNewHandleValues props v k = Returns r
    /\ ((forall i, inspected (Z.of_nat k) (Z.of_nat j) i ->
                   push_at handleProps i) ->
        filled_with sorted (Z.of_nat k) (Z.of_nat j) v r)
    /\ (~ (forall i, inspected (Z.of_nat k) (Z.of_nat j) i ->
                     push_at handleProps i) ->
        exists (lock : nat) (lockValue : number),
          inspected (Z.of_nat k) (Z.of_nat j) (Z.of_nat lock)
          /\ locked_at handleProps (Z.of_nat lock)
          /\ (forall i, strictly_between (Z.of_nat k) (Z.of_nat lock) i ->
                        push_at handleProps i)
          /\ oldValues !! lock = Some lockValue
          /\ filled_with oldValues (Z.of_nat k) (Z.of_nat lock) lockValue r).

(** The entries of two arrays at [i] differ under [!==]. *)
Definition differ_at (oldValues newValues : list number) (i : nat) : Prop :=
  match oldValues !! i, newValues !! i with
  | Some a, Some b => ~ (a == b)%Q
  | None, None => False
  | _, _ => True
  end.

(** ** Sample sliders *)

Definition sample_handle (v : number) (kind : option HandleInteractionKind)
  : IHandleProps :=
  {| value := v; interactionKind := kind;
     handle_onChange := Some 7%nat; handle_onRelease := None |}.

Definition sample_slider (lo hi : number) (cs : list Child)
  : IMultiSliderProps :=
  {| disabled := false; labelStepSize := 1%Q; labelRenderer := LabelsDefault;
     max := hi; min := lo; stepSize := 1%Q; vertical := false;
     onChange := Some 1%nat; onRelease := Some 2%nat; children := cs |}.

(** A push handle at 1 below a locked handle at 5. *)
Definition push_below_lock : IMultiSliderProps :=
  sample_slider 0%Q 10%Q
    [ChildHandle (sample_handle 5%Q (Some LOCK));
     ChildHandle (sample_handle 1%Q (Some PUSH))].

(** Three push handles, a handle of kind [NONE] and a child that is no
    handle. *)
Definition three_push : IMultiSliderProps :=
  sample_slider 0%Q 10%Q
    [ChildHandle (sample_handle 9%Q (Some PUSH));
     ChildOther;
     ChildHandle (sample_handle 4%Q (Some NONE));
     ChildHandle (sample_handle 2%Q (Some PUSH));
     ChildHandle (sample_handle 5%Q (Some PUSH))].

(** A call has thrown. *)
Definition throws {A} (o : outcome A) : Prop :=
  match o with
  | Throws _ => True
  | _ => False
  end.

(** Prop validation as the specification words it: an error exactly for a
    step size that is not positive. *)
Definition throws_only_for_steps (props : IMultiSliderProps) : Prop :=
  throws (validateProps props)
  <-> (stepSize props <= 0)%Q \/ (labelStepSize props <= 0)%Q.

(** Two mounted handles, at 2 and at 8, on a track where the client offset
    is the value; the event lies at offset 6. *)
Definition sample_mounted (v : number) : Handle :=
  {| handle_value := v;
     clientToValue := fun offset => offset;
     mouseEventClientOffset := fun _ => 6%Q;
     touchEventClientOffset := fun _ => 6%Q |}.

Definition track_event : TrackEvent := {| target_in_handle := false |}.

(** The supplied window lacks one of the four members the validators look
    for. *)
Definition lacks_member (w : Window) : Prop :=
  document w <> MPresent \/ location w <> MPresent
  \/ alert w <> MPresent \/ setInterval w <> MPresent.

Definition full_window : Window :=
  {| document := MPresent; location := MPresent;
     alert := MPresent; setInterval := MPresent |}.

(** What the reconciliation may depend on: the value and the interaction
    kind of each handle child, in the order of the children. *)
Definition kinds_and_values (props : IMultiSliderProps)
  : list (number * option HandleInteractionKind) :=
  map (fun h => (value h, interactionKind h))
      (child_handles (children props)).

(** A handle without its callbacks. *)
Definition bare_handle (h : IHandleProps) : IHandleProps :=
  {| value := value h; interactionKind := interactionKind h;
     handle_onChange := None; handle_onRelease := None |}.

(** The handles of [three_push] in a slider that differs in every other
    prop. *)
Definition three_push_other : IMultiSliderProps :=
  {| disabled := true; labelStepSize := 2%Q; labelRenderer := LabelsOff;
     max := 20%Q; min := (-5)%Q; stepSize := (1 # 2)%Q; vertical := true;
     onChange := None; onRelease := None;
     children :=
       [ChildEmpty;
        ChildHandle {| value := 9%Q; interactionKind := Some PUSH;
                       handle_onChange := None; handle_onRelease := Some 3%nat |};
        ChildHandle {| value := 4%Q; interactionKind := Some NONE;
                       handle_onChange := None; handle_onRelease := None |};
        ChildHandle {| value := 2%Q; interactionKind := Some PUSH;
                       handle_onChange := Some 4%nat; handle_onRelease := None |};
        ChildOther;
        ChildHandle {| value := 5%Q; interactionKind := Some PUSH;
                       handle_onChange := None; handle_onRelease := None |}] |}.

(** A world in which the slider of [three_push] is mounted, and one that
    has nothing in common with it but the values and kinds of the
    handles. *)
Definition mounted_world : Store.World :=
  {| Store.heap := [Store.Numbers [9%Q; 2%Q]];
     Store.this_props := three_push;
     Store.this_state := initial_state;
     Store.calls := [] |}.

Definition other_world : Store.World :=
  {| Store.heap := [];
     Store.this_props := three_push_other;
     Store.this_state := {| tickSize := 2%Q; tickSizeRatio := (1 # 25)%Q |};
     Store.calls := [SliderOnChange 7%nat [2%Q; 5%Q; 9%Q]] |}.

(** ** Rendered handles (lines 287-316) *)



(** ** Further vocabulary *)

(** Two arrays hold equal numbers at every index. *)
Definition same_values (a b : list number) : Prop := Forall2 Qeq a b.

(** How many entries of [l] lie strictly below [v]. *)
Definition count_below (v : number) (l : list number) : nat :=
  length (List.filter (fun x => num_lt x v) l).



(** Handle children in nondecreasing order, three of them at the same
    value. *)
Definition ordered_slider : IMultiSliderProps :=
  sample_slider 0%Q 10%Q
    [ChildHandle (sample_handle 1%Q (Some PUSH));
     ChildHandle (sample_handle 5%Q (Some LOCK));
     ChildEmpty;
     ChildHandle (sample_handle 5%Q (Some NONE));
     ChildHandle (sample_handle 5%Q (Some PUSH))].

(** The handle at [i] is one the handle at [k] has to pass on its way to
    [v]: it lies above [k] with a value strictly below [v], or below [k]
    with a value of [v] or more. *)
Definition in_the_way (handleProps : list IHandleProps) (k : nat)
    (v : number) (i : nat) : Prop :=
  exists h, handleProps !! i = Some h
            /\ ((k < i)%nat /\ (value h < v)%Q
                \/ (i < k)%nat /\ (v <= value h)%Q).

(** * Properties *)

(** ** Sorting with the comparator [left.key - right.key] *)

Section sorting.
Context {A : Type} (key : A -> number).
Local Abbreviation by_key := (by_key key).
Local Abbreviation key_le := (key_le key).

Lemma by_key_le x y : num_le (by_key x y) 0%Q = true <-> key_le x y.
Proof.
  unfold num_le, by_key, key_le. rewrite Qle_bool_iff. split; intros; lra.
Qed.

Lemma by_key_gt x y : num_le (by_key x y) 0%Q = false -> key_le y x.
Proof.
  intros H. unfold key_le.
  destruct (Qlt_le_dec (key y) (key x)) as [Hlt|Hle]; [lra|].
  apply by_key_le in Hle. congruence.
Qed.

Lemma sort_insert_Permutation x l : sort_insert by_key x l ≡ₚ x :: l.
Proof.
  induction l as [|y l IH]; simpl; [done|].
  destruct (num_le _ _); [done|].
  rewrite IH. apply perm_swap.
Qed.

Lemma array_sort_Permutation l : array_sort by_key l ≡ₚ l.
Proof.
  induction l as [|x l IH]; simpl; [done|].
  rewrite sort_insert_Permutation. by rewrite IH.
Qed.

Lemma key_le_trans x y z : key_le x y -> key_le y z -> key_le x z.
Proof. unfold key_le. intros. lra. Qed.

Lemma sort_insert_sorted x l :
  StronglySorted key_le l -> StronglySorted key_le (sort_insert by_key x l).
Proof.
  induction 1 as [|y l Hl IH Hy]; simpl.
  - repeat constructor.
  - destruct (num_le (by_key x y) 0%Q) eqn:E.
    + apply by_key_le in E. constructor; [by constructor|].
      constructor; [done|].
      eapply Forall_impl; [exact Hy|]. intros z Hz.
      by eapply key_le_trans.
    + apply by_key_gt in E. constructor; [done|].
      rewrite sort_insert_Permutation. by constructor.
Qed.

Lemma array_sort_sorted l : StronglySorted key_le (array_sort by_key l).
Proof.
  induction l as [|x l IH]; simpl; [constructor|].
  by apply sort_insert_sorted.
Qed.

Lemma array_sort_length l : length (array_sort by_key l) = length l.
Proof. apply Permutation_length, array_sort_Permutation. Qed.

(** Inserting below the head is a cons. *)
Lemma sort_insert_least x l :
  Forall (key_le x) l -> sort_insert by_key x l = x :: l.
Proof.
  destruct 1 as [|y l Hy _]; simpl; [done|].
  apply by_key_le in Hy. by rewrite Hy.
Qed.

(** The sort is stable, so it commutes with a filter. *)
Lemma filter_sort_insert (P : A -> bool) x l :
  StronglySorted key_le l ->
  List.filter P (sort_insert by_key x l)
  = if P x then sort_insert by_key x (List.filter P l) else List.filter P l.
Proof.
  induction 1 as [|y l Hl IH Hy]; simpl.
  - by destruct (P x).
  - destruct (num_le (by_key x y) 0%Q) eqn:E; simpl.
    + destruct (P x) eqn:Px; [|done].
      apply by_key_le in E.
      symmetry. etrans; [|reflexivity].
      change (sort_insert by_key x (List.filter P (y :: l))
              = x :: List.filter P (y :: l)).
      apply sort_insert_least.
      apply List.Forall_forall. intros z Hz.
      apply List.filter_In in Hz as [Hz _].
      destruct Hz as [<-|Hz]; [done|].
      eapply key_le_trans; [exact E|].
      by eapply List.Forall_forall in Hy.
    + rewrite IH. destruct (P y) eqn:Py, (P x) eqn:Px; simpl; try done.
      by rewrite E.
Qed.

Lemma filter_array_sort (P : A -> bool) l :
  List.filter P (array_sort by_key l) = array_sort by_key (List.filter P l).
Proof.
  induction l as [|x l IH]; simpl; [done|].
  rewrite filter_sort_insert by apply array_sort_sorted.
  rewrite IH. by destruct (P x).
Qed.
End sorting.

(** ** Handle ordering *)

Lemma getSortedHandleProps_filter props predicate :
  getSortedHandleProps props predicate
  = array_sort (by_key value)
      (List.filter predicate (child_handles (children props))).
Proof.
  unfold getSortedHandleProps, child_handles. f_equal.
  induction (children props) as [|c cs IH]; [done|].
  destruct c as [|p|]; cbn; try exact IH.
  destruct (predicate p); cbn; [f_equal|]; exact IH.
Qed.

Lemma filter_all {A} (l : list A) : List.filter (fun _ => true) l = l.
Proof. induction l; simpl; congruence. Qed.

Lemma getSortedHandleProps_sorted props predicate :
  sorted_by_value (getSortedHandleProps props predicate).
Proof. rewrite getSortedHandleProps_filter. apply array_sort_sorted. Qed.

Lemma interactive_sorted props :
  sorted_by_value (getSortedInteractiveHandleProps props).
Proof. apply getSortedHandleProps_sorted. Qed.

(** C7.  The handles come back sorted nondecreasing by value, they are the
    props of the handle children and no others, and the interactive handles
    are that sorted list without the handles of interaction kind [NONE],
    again sorted. *)
Theorem handle_ordering props :
  let sorted := getSortedHandleProps props (fun _ => true) in
  sorted_by_value sorted
  /\ sorted ≡ₚ child_handles (children props)
  /\ getSortedInteractiveHandleProps props
     = List.filter (fun h => negb (bool_decide (interactionKind h = Some NONE)))
         sorted
  /\ sorted_by_value (getSortedInteractiveHandleProps props).
Proof.
  cbv zeta. split_and!.
  - apply getSortedHandleProps_sorted.
  - rewrite getSortedHandleProps_filter, filter_all.
    apply array_sort_Permutation.
  - unfold getSortedInteractiveHandleProps.
    rewrite !getSortedHandleProps_filter, filter_all, filter_array_sort.
    f_equal. apply List.filter_ext. intros h. unfold is_interactive.
    destruct (interactionKind h) as [[]|]; done.
  - apply interactive_sorted.
Qed.

(** ** The scan for the first locked handle *)

Lemma array_get_in_range {A} (a : list A) (i : Z) :
  (0 <= i < Z.of_nat (length a))%Z -> is_Some (array_get a i).
Proof.
  intros Hi. unfold array_get.
  destruct (Z.ltb_spec i 0); [lia|].
  apply lookup_lt_is_Some. lia.
Qed.

Lemma array_get_Some {A} (a : list A) (i : Z) x :
  array_get a i = Some x ->
  (0 <= i < Z.of_nat (length a))%Z /\ a !! Z.to_nat i = Some x.
Proof.
  unfold array_get. destruct (Z.ltb_spec i 0); [done|].
  intros Hx. split; [|done]. apply lookup_lt_Some in Hx. lia.
Qed.

Lemma array_get_of_nat {A} (a : list A) (i : nat) :
  array_get a (Z.of_nat i) = a !! i.
Proof.
  unfold array_get. destruct (Z.ltb_spec (Z.of_nat i) 0); [lia|].
  by rewrite Nat2Z.id.
Qed.

Lemma is_push_true hp i h :
  array_get hp i = Some h -> is_push h = true -> push_at hp i.
Proof.
  intros Hh Hp. exists h. split; [done|].
  unfold is_push in Hp. by destruct (interactionKind h) as [[]|].
Qed.

Lemma is_push_false hp i h :
  array_get hp i = Some h -> is_push h = false -> locked_at hp i.
Proof.
  intros Hh Hp. exists h. split; [done|].
  unfold is_push in Hp. by destruct (interactionKind h) as [[]|].
Qed.

Lemma push_not_locked hp i : push_at hp i -> locked_at hp i -> False.
Proof. intros (h & Hh & Hp) (h' & Hh' & Hl). congruence. Qed.

(** The loop walks [n] steps of [inc] from [index]; it returns the first
    position that is not a push handle, or [-1] after the last one. *)
Lemma findFirstLocked_loop_walk hp inc endIndex (n : nat) :
  (inc = 1 \/ inc = -1)%Z ->
  forall index,
    (endIndex + inc = index + inc * Z.of_nat n)%Z ->
    (forall k, (0 <= k < Z.of_nat n)%Z ->
               is_Some (array_get hp (index + inc * k))) ->
    exists r,
      findFirstLocked_loop hp inc endIndex (S n) index = Returns r
      /\ ((r = (-1)%Z
           /\ forall k, (0 <= k < Z.of_nat n)%Z ->
                        push_at hp (index + inc * k))
          \/ (exists k, (0 <= k < Z.of_nat n)%Z
                /\ r = (index + inc * k)%Z
                /\ locked_at hp r
                /\ forall k', (0 <= k' < k)%Z ->
                              push_at hp (index + inc * k'))).
Proof.
  intros Hinc.
  induction n as [|n IH]; intros index Hend Hrange.
  - exists (-1)%Z. split.
    + simpl. destruct (Z.eqb_spec index (endIndex + inc)); [done|lia].
    + left. split; [done|]. intros; lia.
  - cbn [findFirstLocked_loop].
    destruct (Z.eqb_spec index (endIndex + inc)) as [Heq|_]; [lia|].
    destruct (Hrange 0%Z) as [h Hh]; [lia|].
    replace (index + inc * 0)%Z with index in Hh by lia. rewrite Hh.
    destruct (is_push h) eqn:Hp; cbn [negb].
    + destruct (IH (index + inc)%Z) as (r & Hr & Hspec); [lia| |].
      { intros k Hk. replace (index + inc + inc * k)%Z
          with (index + inc * (k + 1))%Z by lia. apply Hrange. lia. }
      exists r. split; [done|].
      assert (Hstep : forall k, (0 <= k)%Z ->
                (forall j, (0 <= j < k)%Z -> push_at hp (index + inc + inc * j)) ->
                forall j, (0 <= j < k + 1)%Z -> push_at hp (index + inc * j)).
      { intros k Hk Hall j Hj. destruct (Z.eq_dec j 0%Z) as [->|Hne].
        - replace (index + inc * 0)%Z with index by lia.
          by eapply is_push_true.
        - replace (index + inc * j)%Z
            with (index + inc + inc * (j - 1))%Z by lia.
          apply Hall. lia. }
      destruct Hspec as [[-> Hall]|(k & Hk & -> & Hlock & Hall)].
      * left. split; [done|]. intros j Hj.
        apply (Hstep (Z.of_nat n)); [lia|done|lia].
      * right. exists (k + 1)%Z.
        split; [lia|]. split; [lia|]. split; [done|].
        apply Hstep; [lia|done].
    + exists index. split; [done|]. right. exists 0%Z.
      split; [lia|]. split; [lia|]. split; [|intros; lia].
      by eapply is_push_false.
Qed.

Lemma findFirstLockedHandleIndex_spec props startIndex endIndex :
  let handleProps := getSortedInteractiveHandleProps props in
  (0 <= startIndex < Z.of_nat (length handleProps))%Z ->
  (0 <= endIndex < Z.of_nat (length handleProps))%Z ->
  exists r,
    findFirstLockedHandleIndex props startIndex endIndex = Returns r
    /\ ((r = (-1)%Z
         /\ forall i, in_scan startIndex endIndex i -> push_at handleProps i)
        \/ (in_scan startIndex endIndex r
            /\ locked_at handleProps r
            /\ forall i, strictly_between startIndex r i ->
                         push_at handleProps i)).
Proof.
  intros hp Hs He. unfold findFirstLockedHandleIndex. fold hp.
  set (inc := if (startIndex <? endIndex)%Z then 1%Z else (-1)%Z).
  set (n := Z.to_nat (Z.abs (endIndex - startIndex))).
  assert (Hinc : (inc = 1 /\ startIndex < endIndex
                  \/ inc = -1 /\ endIndex <= startIndex)%Z).
  { unfold inc. destruct (Z.ltb_spec startIndex endIndex); lia. }
  clearbody inc.
  assert (Hn : Z.of_nat n = (inc * (endIndex - startIndex))%Z)
    by (unfold n; destruct Hinc as [[-> ?]|[-> ?]]; lia).
  clearbody n.
  destruct (findFirstLocked_loop_walk hp inc endIndex n) with
    (index := (startIndex + inc)%Z) as (r & Hr & Hspec).
  { lia. }
  { destruct Hinc as [[-> ?]|[-> ?]]; lia. }
  { intros k Hk. apply array_get_in_range.
    destruct Hinc as [[-> ?]|[-> ?]]; lia. }
  exists r. split; [done|].
  destruct Hspec as [[-> Hall]|(k & Hk & -> & Hlock & Hall)].
  - left. split; [done|]. intros i Hi. unfold in_scan in Hi.
    replace i with (startIndex + inc + inc * (inc * (i - startIndex) - 1))%Z
      by (destruct Hinc as [[-> ?]|[-> ?]]; lia).
    apply Hall. destruct Hinc as [[-> ?]|[-> ?]]; lia.
  - right. split; [unfold in_scan; destruct Hinc as [[-> ?]|[-> ?]]; lia|].
    split; [done|].
    intros i Hi. unfold strictly_between in Hi.
    replace i with (startIndex + inc + inc * (inc * (i - startIndex) - 1))%Z
      by (destruct Hinc as [[-> ?]|[-> ?]]; lia).
    apply Hall. destruct Hinc as [[-> ?]|[-> ?]]; lia.
Qed.

(** C3.  With both indices inside the handle list, the scan returns an
    index: [-1] when, and only when, every handle from the one next to
    [startIndex] up to and including [endIndex] is a push handle, and
    otherwise the first handle on that way, in the direction of [endIndex],
    whose kind is not [PUSH]. *)
Theorem findFirstLockedHandleIndex_scan props startIndex endIndex :
  let handleProps := getSortedInteractiveHandleProps props in
  (0 <= startIndex < Z.of_nat (length handleProps))%Z ->
  (0 <= endIndex < Z.of_nat (length handleProps))%Z ->
  exists r,
    findFirstLockedHandleIndex props startIndex endIndex = Returns r
    /\ ((r = (-1)%Z
         /\ forall i, in_scan startIndex endIndex i -> push_at handleProps i)
        \/ (in_scan startIndex endIndex r
            /\ locked_at handleProps r
            /\ forall i, strictly_between startIndex r i ->
                         push_at handleProps i))
    /\ (r = (-1)%Z
        <-> forall i, in_scan startIndex endIndex i -> push_at handleProps i).
Proof.
  intros hp Hs He.
  destruct (findFirstLockedHandleIndex_spec props startIndex endIndex Hs He)
    as (r & Hr & Hscan).
  exists r. split; [done|]. split; [done|].
  destruct Hscan as [[-> Hall]|(Hin & Hlock & Hbefore)].
  - done.
  - split.
    + intros ->. unfold in_scan in Hin. lia.
    + intros Hall. destruct (push_not_locked hp r); auto.
Qed.

Lemma findFirstLockedHandleIndex_scan_witness :
  (0 <= 0 < Z.of_nat (length (getSortedInteractiveHandleProps push_below_lock)))%Z
  /\ (0 <= 1 < Z.of_nat (length (getSortedInteractiveHandleProps push_below_lock)))%Z
  /\ exists r,
       findFirstLockedHandleIndex push_below_lock 0 1 = Returns r
       /\ ((r = (-1)%Z
            /\ forall i, in_scan 0 1 i ->
                  push_at (getSortedInteractiveHandleProps push_below_lock) i)
           \/ (in_scan 0 1 r
               /\ locked_at (getSortedInteractiveHandleProps push_below_lock) r
               /\ forall i, strictly_between 0 r i ->
                     push_at (getSortedInteractiveHandleProps push_below_lock)
                             i))
       /\ (r = (-1)%Z
           <-> forall i, in_scan 0 1 i ->
                 push_at (getSortedInteractiveHandleProps push_below_lock) i).
Proof.
  assert (H0 : (0 <= 0 < Z.of_nat
                  (length (getSortedInteractiveHandleProps push_below_lock)))%Z)
    by (vm_compute; split; [discriminate|reflexivity]).
  assert (H1 : (0 <= 1 < Z.of_nat
                  (length (getSortedInteractiveHandleProps push_below_lock)))%Z)
    by (vm_compute; split; [discriminate|reflexivity]).
  split; [exact H0|]. split; [exact H1|].
  exact (findFirstLockedHandleIndex_scan push_below_lock 0 1 H0 H1).
Defined.

(** ** Sorted arrays of numbers *)

Lemma StronglySorted_lookup_iff {A} (R : relation A) (l : list A) :
  StronglySorted R l
  <-> forall i j x y, (i < j)%nat -> l !! i = Some x -> l !! j = Some y -> R x y.
Proof.
  split.
  - induction 1 as [|z l Hl IH Hz]; intros i j x y Hij Hx Hy.
    + by rewrite lookup_nil in Hx.
    + destruct j as [|j]; [lia|]. destruct i as [|i]; simpl in *.
      * injection Hx as <-. eapply Forall_lookup_1 in Hz; eauto.
      * eapply (IH i j); eauto. lia.
  - induction l as [|z l IH]; intros H; constructor.
    + apply IH. intros i j x y Hij Hx Hy. apply (H (S i) (S j)); [lia|done..].
    + apply Forall_lookup_2. intros j y Hy. apply (H 0%nat (S j)); [lia|done..].
Qed.

Lemma sort_numbers_sorted (l : list number) :
  sorted_values (array_sort (fun left right => (left - right)%Q) l).
Proof. apply (array_sort_sorted (fun x : number => x)). Qed.

Lemma sort_numbers_Permutation (l : list number) :
  array_sort (fun left right => (left - right)%Q) l ≡ₚ l.
Proof. apply (array_sort_Permutation (fun x : number => x)). Qed.

Lemma sorted_by_value_values hp :
  sorted_by_value hp -> sorted_values (map value hp).
Proof.
  intros H. apply StronglySorted_lookup_iff. intros i j x y Hij Hx Hy.
  change (map value hp) with (value <$> hp) in Hx, Hy.
  rewrite list_lookup_fmap in Hx, Hy.
  destruct (hp !! i) as [a|] eqn:Ha; [|done].
  destruct (hp !! j) as [b|] eqn:Hb; [|done].
  simpl in *. injection Hx as <-. injection Hy as <-.
  eapply (proj1 (StronglySorted_lookup_iff _ _) H); eauto.
Qed.

(** ** [indexOf] and [fillValues] *)

Lemma indexOf_from_first a v : forall base,
  (exists y, y ∈ a /\ (y == v)%Q) ->
  exists j : nat,
    indexOf_from a v base = (base + Z.of_nat j)%Z /\ first_position a v j.
Proof.
  induction a as [|x a IH]; intros base (y & Hy & Hyv).
  - by apply elem_of_nil in Hy.
  - simpl. unfold num_eq. destruct (Qeq_bool x v) eqn:E.
    + exists 0%nat. split; [lia|]. split.
      * exists x. split; [done|]. by apply Qeq_bool_iff.
      * intros; lia.
    + assert (Hne : ~ (x == v)%Q).
      { intros Hx. apply Qeq_bool_iff in Hx. congruence. }
      apply elem_of_cons in Hy as [->|Hy]; [done|].
      destruct (IH (base + 1)%Z) as (j & Hj & [Hat Hbefore]); [by eauto|].
      exists (S j). split; [lia|]. split; [done|].
      intros [|i] z Hi Hz; simpl in Hz.
      * by injection Hz as <-.
      * eapply Hbefore; [|done]. lia.
Qed.

Lemma fillValues_inside {A} (l : list A) a b v :
  (Z.max a b < Z.of_nat (length l))%Z ->
  fillValues l a b v
  = imap (fun i x =>
            if ((Z.min a b <=? Z.of_nat i)%Z
                && (Z.of_nat i <=? Z.max a b)%Z)%bool
            then v else x) l.
Proof.
  intros Hlast. unfold fillValues.
  destruct (Z.leb_spec (Z.of_nat (length l)) (Z.max a b)); [lia|].
  by rewrite andb_false_r, app_nil_r.
Qed.

Lemma fillValues_filled (l : list number) a b v :
  (Z.max a b < Z.of_nat (length l))%Z ->
  filled_with l a b v (fillValues l a b v).
Proof.
  intros Hlast. rewrite fillValues_inside by done.
  unfold filled_with. split; [apply length_imap|].
  intros i x Hx. rewrite list_lookup_imap, Hx. done.
Qed.

Lemma between_spec a b i :
  between a b i = true
  <-> (Z.min a b <= Z.of_nat i <= Z.max a b)%Z.
Proof.
  unfold between. rewrite andb_true_iff, !Z.leb_le. done.
Qed.

(** Filling a stretch of a sorted array with a value the array holds inside
    that stretch leaves it sorted. *)
Lemma filled_with_sorted l a b v r c x :
  sorted_values l ->
  l !! c = Some x -> (x == v)%Q -> between a b c = true ->
  filled_with l a b v r ->
  sorted_values r.
Proof.
  intros Hl Hc Hxv Hbc [Hlen Hr].
  pose proof (proj1 (StronglySorted_lookup_iff _ _) Hl) as Hs.
  apply between_spec in Hbc.
  apply StronglySorted_lookup_iff. intros i j y z Hij Hy Hz.
  assert (is_Some (l !! i)) as [y' Hy'].
  { apply lookup_lt_is_Some. rewrite <- Hlen. by eapply lookup_lt_Some. }
  assert (is_Some (l !! j)) as [z' Hz'].
  { apply lookup_lt_is_Some. rewrite <- Hlen. by eapply lookup_lt_Some. }
  rewrite (Hr _ _ Hy') in Hy. rewrite (Hr _ _ Hz') in Hz.
  injection Hy as <-. injection Hz as <-.
  pose proof (Hs i j y' z' Hij Hy' Hz') as Hyz.
  destruct (between a b i) eqn:Ei, (between a b j) eqn:Ej.
  - lra.
  - apply between_spec in Ei.
    assert (Hnj : ~ (Z.min a b <= Z.of_nat j <= Z.max a b)%Z).
    { rewrite <- between_spec. congruence. }
    assert (c < j)%nat by lia.
    pose proof (Hs c j x z' ltac:(done) Hc Hz'). lra.
  - apply between_spec in Ej.
    assert (Hni : ~ (Z.min a b <= Z.of_nat i <= Z.max a b)%Z).
    { rewrite <- between_spec. congruence. }
    assert (i < c)%nat by lia.
    pose proof (Hs i c y' x ltac:(done) Hy' Hc). lra.
  - done.
Qed.

(** ** Reconciliation of a drag *)

Lemma array_set_in_range {A} (a : list A) i x :
  (i < length a)%nat -> array_set a i x = <[i := x]> a.
Proof.
  intros Hi. unfold array_set. by destruct (Nat.ltb_spec i (length a)); [|lia].
Qed.

Lemma first_position_lt l v j : first_position l v j -> (j < length l)%nat.
Proof. intros [(x & Hx & _) _]. by eapply lookup_lt_Some. Qed.

Lemma getNewHandleValues_spec props v (k : nat) :
  let handleProps := getSortedInteractiveHandleProps props in
  let oldValues := map value handleProps in
  (k < length handleProps)%nat ->
  exists (sorted : list number) (j : nat) (r : list number),
    sorted ≡ₚ <[k := v]> oldValues
    /\ sorted_values sorted
    /\ first_position sorted v j
    /\ getNewHandleValues props v k = Returns r
    /\ (((forall i, in_scan (Z.of_nat k) (Z.of_nat j) i -> push_at handleProps i)
         /\ filled_with sorted (Z.of_nat k) (Z.of_nat j) v r)
        \/ (exists (lock : nat) (lockValue : number),
              in_scan (Z.of_nat k) (Z.of_nat j) (Z.of_nat lock)
              /\ locked_at handleProps (Z.of_nat lock)
              /\ (forall i, strictly_between (Z.of_nat k) (Z.of_nat lock) i ->
                            push_at handleProps i)
              /\ oldValues !! lock = Some lockValue
              /\ filled_with oldValues (Z.of_nat k) (Z.of_nat lock)
                   lockValue r)).
Proof.
  intros hp old Hk.
  assert (Hlen : length old = length hp) by apply length_map.
  set (sorted := array_sort (fun left right => (left - right)%Q)
                            (<[k := v]> old)).
  assert (Hperm : sorted ≡ₚ <[k := v]> old) by apply sort_numbers_Permutation.
  assert (Hsorted : sorted_values sorted) by apply sort_numbers_sorted.
  assert (Hslen : length sorted = length hp).
  { rewrite (Permutation_length Hperm), length_insert. done. }
  destruct (indexOf_from_first sorted v 0) as (j & Hj & Hfirst).
  { exists v. split; [|reflexivity]. rewrite Hperm.
    apply list_elem_of_lookup. exists k.
    apply list_lookup_insert_eq. lia. }
  pose proof (first_position_lt _ _ _ Hfirst) as Hjlt.
  exists sorted, j.
  unfold getNewHandleValues. fold hp. fold old.
  destruct (Nat.ltb_spec (length old) k) as [|_]; [lia|].
  rewrite array_set_in_range by lia. fold sorted.
  unfold indexOf. rewrite Hj, Z.add_0_l.
  destruct (findFirstLockedHandleIndex_spec props (Z.of_nat k) (Z.of_nat j))
    as (lockIndex & -> & Hscan); fold hp; [lia|lia|].
  cbn [bind].
  destruct Hscan as [[-> Hall]|(Hin & Hlock & Hbefore)].
  - simpl. eexists. split_and!; [done..|].
    left. split; [done|]. apply fillValues_filled. lia.
  - assert (Hrange : (0 <= lockIndex < Z.of_nat (length hp))%Z)
      by (unfold in_scan in Hin; lia).
    destruct (Z.eqb_spec lockIndex (-1)); [lia|].
    destruct (array_get_in_range old lockIndex) as [lockValue Hv]; [lia|].
    rewrite Hv. eexists. split_and!; [done..|].
    right. exists (Z.to_nat lockIndex), lockValue.
    rewrite Z2Nat.id by lia.
    split_and!; try done.
    + by apply array_get_Some in Hv as [_ Hv].
    + apply fillValues_filled. lia.
Qed.

(** C1, as amended.  A drag of the handle at sorted index [k] to [v] returns
    an array.  With [j] the first position of [v] among the sorted updated
    values: when every handle after [k] up to and including [j] is a push
    handle, the array is the sorted one with all entries between [k] and [j]
    set to [v]; otherwise [v] is dropped and the array is the old one with
    all entries between [k] and the first handle on that way that is not a
    push handle set to that handle's old value. *)
Theorem getNewHandleValues_reconciles props v (k : nat) :
  (k < length (getSortedInteractiveHandleProps props))%nat ->
  reconciliation in_scan props v k.
Proof.
  intros Hk.
  destruct (getNewHandleValues_spec props v k Hk)
    as (sorted & j & r & Hperm & Hsorted & Hfirst & Hr & Hcases).
  exists sorted, j, r. split_and!; try done.
  - intros Hall. destruct Hcases as [[_ Hfill]|Hlock]; [done|].
    destruct Hlock as (lock & lockValue & Hin & Hlocked & _).
    destruct (push_not_locked _ _ (Hall _ Hin) Hlocked).
  - intros Hnot. destruct Hcases as [[Hall _]|Hlock]; [done|].
    destruct Hlock as (lock & lockValue & Hlock). by exists lock, lockValue.
Qed.

Lemma getNewHandleValues_reconciles_witness :
  (0 < length (getSortedInteractiveHandleProps push_below_lock))%nat
  /\ reconciliation in_scan push_below_lock 7%Q 0.
Proof.
  assert (H : (0 < length (getSortedInteractiveHandleProps push_below_lock))%nat)
    by (vm_compute; lia).
  split; [exact H|]. exact (getNewHandleValues_reconciles _ _ _ H).
Defined.

(** C1 as the specification words it, inspecting only the handles strictly
    between the old index and the new position, fails: dragging the push
    handle at 1 past the locked handle at 5 to 7 would have to give [7; 7],
    and gives [5; 5]. *)
Lemma reconciliation_strictly_between_fails :
  ~ reconciliation strictly_between push_below_lock 7%Q 0.
Proof.
  intros (sorted & j & r & Hperm & Hsorted & Hfirst & Hr & Hpush & _).
  vm_compute in Hr. injection Hr as <-.
  vm_compute in Hperm. symmetry in Hperm.
  apply Permutation_length_2_inv in Hperm as [->| ->].
  - apply StronglySorted_inv in Hsorted as [_ Hle].
    apply Forall_inv in Hle. vm_compute in Hle. by apply Hle.
  - destruct Hfirst as [(x & Hx & Hxv) _].
    destruct j as [|[|j]]; simpl in Hx; [|clear Hx Hxv|done].
    + injection Hx as <-. vm_compute in Hxv. done.
    + destruct Hpush as [_ Hfill].
      * intros i [Hi|Hi]; lia.
      * specialize (Hfill 0%nat 5%Q eq_refl). vm_compute in Hfill. done.
Qed.

(** ** What the callbacks receive *)

Lemma getNewHandleValues_sorted props v (k : nat) :
  (k < length (getSortedInteractiveHandleProps props))%nat ->
  exists r, getNewHandleValues props v k = Returns r /\ sorted_values r.
Proof.
  intros Hk.
  destruct (getNewHandleValues_spec props v k Hk)
    as (sorted & j & r & Hperm & Hsorted & Hfirst & Hr & Hcases).
  exists r. split; [done|].
  destruct Hcases as [[_ Hfill]|(lock & lockValue & _ & _ & _ & Hv & Hfill)].
  - destruct Hfirst as [(x & Hx & Hxv) _].
    eapply (filled_with_sorted sorted); [done|exact Hx|done| |done].
    apply between_spec. lia.
  - eapply (filled_with_sorted _ _ _ _ _ lock lockValue);
      [|exact Hv|reflexivity| |done].
    + apply sorted_by_value_values, interactive_sorted.
    + apply between_spec. lia.
Qed.

Lemma in_handle_calls {A} (f : nat -> A -> list Invocation) (l : list A) e :
  e ∈ concat (imap f l) -> exists i x, l !! i = Some x /\ e ∈ f i x.
Proof.
  rewrite list_elem_of_In, in_concat.
  intros (calls & Hcalls & He).
  apply list_elem_of_In in Hcalls.
  apply elem_of_lookup_imap in Hcalls as (i & x & -> & Hx).
  exists i, x. split; [done|]. by apply list_elem_of_In.
Qed.

Lemma in_safeInvoke {A} (callback : option A) call e :
  e ∈ safeInvoke callback call ->
  exists cb, callback = Some cb /\ e = call cb.
Proof.
  destruct callback as [cb|]; simpl.
  - intros ->%list_elem_of_singleton. by exists cb.
  - by intros ?%elem_of_nil.
Qed.

(** Every call [handleChange] makes: the values were not equal to the
    current ones, and the call is either the slider's [onChange] with the
    whole array or the [onChange] of a handle whose entry differs. *)
Lemma handleChange_calls props newValues e :
  let handleProps := getSortedInteractiveHandleProps props in
  let oldValues := map value handleProps in
  e ∈ handleChange props newValues ->
  arraysEqual newValues oldValues = false
  /\ ((exists cb, onChange props = Some cb /\ e = SliderOnChange cb newValues)
      \/ (exists i h cb,
            handleProps !! i = Some h
            /\ handle_onChange h = Some cb
            /\ strict_neq (oldValues !! i) (newValues !! i) = true
            /\ e = HandleOnChange i cb (newValues !! i))).
Proof.
  intros hp old. unfold handleChange. fold hp. fold old.
  destruct (arraysEqual newValues old); simpl; [by intros ?%elem_of_nil|].
  intros [He|He]%elem_of_app; (split; [done|]).
  - left. by apply in_safeInvoke in He.
  - right. apply in_handle_calls in He as (i & h & Hh & He).
    destruct (strict_neq (old !! i) (newValues !! i)) eqn:Hne;
      [|by apply elem_of_nil in He].
    apply in_safeInvoke in He as (cb & Hcb & ->). by exists i, h, cb.
Qed.

Lemma handleRelease_calls props newValues e :
  e ∈ handleRelease props newValues ->
  (exists cb, onRelease props = Some cb /\ e = SliderOnRelease cb newValues)
  \/ (exists i cb, e = HandleOnRelease i cb (newValues !! i)).
Proof.
  unfold handleRelease. intros [He|He]%elem_of_app.
  - left. by apply in_safeInvoke in He.
  - right. apply in_handle_calls in He as (i & h & Hh & He).
    apply in_safeInvoke in He as (cb & Hcb & ->). by exists i, cb.
Qed.

(** C4.  A drag of a rendered handle returns an array sorted in nondecreasing
    order, in the branch that fills with the new value and in the branch that
    fills with the lock value alike (the current values are sorted by
    construction), and so is every array the handlers built from
    [handleChange] and [handleRelease] pass to [props.onChange] and
    [props.onRelease]. *)
Theorem delivered_values_sorted props v (k : nat) :
  (k < length (getSortedInteractiveHandleProps props))%nat ->
  sorted_values (map value (getSortedInteractiveHandleProps props))
  /\ (exists r, getNewHandleValues props v k = Returns r /\ sorted_values r)
  /\ (exists calls,
        getHandlerForIndex props k (Some handleChange) v = Returns calls
        /\ forall cb values, SliderOnChange cb values ∈ calls ->
                             sorted_values values)
  /\ (exists calls,
        getHandlerForIndex props k (Some handleRelease) v = Returns calls
        /\ forall cb values, SliderOnRelease cb values ∈ calls ->
                             sorted_values values).
Proof.
  intros Hk.
  destruct (getNewHandleValues_sorted props v k Hk) as (r & Hr & Hsorted).
  split; [apply sorted_by_value_values, interactive_sorted|].
  split; [by exists r|].
  unfold getHandlerForIndex. rewrite Hr. cbn [bind]. split.
  - eexists. split; [done|]. intros cb values Hin.
    apply handleChange_calls in Hin as [_ [(cb' & _ & Heq)|(i & h & cb' & Hrest)]].
    + by injection Heq as _ ->.
    + by destruct Hrest as (_ & _ & _ & ?).
  - eexists. split; [done|]. intros cb values Hin.
    apply handleRelease_calls in Hin as [(cb' & _ & Heq)|(i & cb' & ?)].
    + by injection Heq as _ ->.
    + done.
Qed.

Lemma delivered_values_sorted_witness :
  (2 < length (getSortedInteractiveHandleProps three_push))%nat
  /\ exists r, getNewHandleValues three_push 3%Q 2 = Returns r
               /\ sorted_values r.
Proof.
  assert (H : (2 < length (getSortedInteractiveHandleProps three_push))%nat)
    by (vm_compute; lia).
  split; [exact H|].
  exact (proj1 (proj2 (delivered_values_sorted three_push 3%Q 2 H))).
Defined.

(** ** Change callbacks *)

Lemma arraysEqual_spec a b : arraysEqual a b = true <-> Forall2 Qeq a b.
Proof.
  revert b. induction a as [|x a IH]; intros [|y b]; simpl.
  - split; [constructor|done].
  - split; [done|inversion 1].
  - split; [done|inversion 1].
  - unfold num_eq. rewrite andb_true_iff, Qeq_bool_iff, IH. split.
    + intros [? ?]. by constructor.
    + inversion 1; by subst.
Qed.

Lemma strict_neq_differ oldValues newValues i :
  strict_neq (oldValues !! i) (newValues !! i) = true
  <-> differ_at oldValues newValues i.
Proof.
  unfold differ_at, strict_neq, num_eq.
  destruct (oldValues !! i) as [a|], (newValues !! i) as [b|]; try done.
  rewrite negb_true_iff, <- not_true_iff_false, Qeq_bool_iff. done.
Qed.

(** C10.  When the computed values equal the current sorted values
    [handleChange] calls nothing.  Each call it makes of [props.onChange]
    finds the values different from the current ones and passes them on;
    each call of a handle's own [onChange] is for an index whose entry
    differs, and passes the new entry. *)
Theorem handleChange_only_on_change props newValues :
  let handleProps := getSortedInteractiveHandleProps props in
  let oldValues := map value handleProps in
  (Forall2 Qeq newValues oldValues -> handleChange props newValues = [])
  /\ (forall cb values,
        SliderOnChange cb values ∈ handleChange props newValues ->
        ~ Forall2 Qeq newValues oldValues
        /\ values = newValues /\ onChange props = Some cb)
  /\ (forall i cb x,
        HandleOnChange i cb x ∈ handleChange props newValues ->
        differ_at oldValues newValues i
        /\ x = newValues !! i
        /\ exists h, handleProps !! i = Some h /\ handle_onChange h = Some cb)
  /\ (forall e, e ∈ handleChange props newValues ->
                match e with
                | SliderOnChange _ _ | HandleOnChange _ _ _ => True
                | _ => False
                end).
Proof.
  intros hp old. split_and!.
  - intros Heq%arraysEqual_spec. unfold handleChange. fold hp. fold old.
    by rewrite Heq.
  - intros cb values Hin.
    apply handleChange_calls in Hin as [Hne [(cb' & Hcb & Heq)|Hh]].
    + injection Heq as -> ->. split_and!; [|done..].
      rewrite <- arraysEqual_spec. cbv zeta in Hne. unfold old, hp.
      by rewrite Hne.
    + by destruct Hh as (? & ? & ? & _ & _ & _ & ?).
  - intros i cb x Hin.
    apply handleChange_calls in Hin as [Hne [(cb' & _ & Heq)|Hh]]; [done|].
    destruct Hh as (i' & h & cb' & Hh & Hcb & Hdiff & Heq).
    injection Heq as -> -> ->. split_and!; [|done|by exists h].
    by apply strict_neq_differ.
  - intros e Hin.
    apply handleChange_calls in Hin as [_ [(cb & _ & ->)|Hh]]; [done|].
    by destruct Hh as (? & ? & ? & _ & _ & _ & ->).
Qed.

Lemma handleChange_only_on_change_witness :
  Forall2 Qeq [2; 5; 9]%Q
    (map value (getSortedInteractiveHandleProps three_push))
  /\ handleChange three_push [2; 5; 9]%Q = [].
Proof.
  assert (H : Forall2 Qeq [2; 5; 9]%Q
                (map value (getSortedInteractiveHandleProps three_push)))
    by (vm_compute; repeat constructor).
  split; [exact H|].
  exact (proj1 (handleChange_only_on_change three_push [2; 5; 9]%Q) H).
Defined.

(** ** Nearest handle *)

Lemma num_lt_false a b : num_lt a b = false -> (b <= a)%Q.
Proof.
  unfold num_lt. rewrite negb_false_iff. apply Qle_bool_iff.
Qed.

Lemma num_lt_true a b : num_lt a b = true -> (a < b)%Q.
Proof.
  unfold num_lt. rewrite negb_true_iff. intros H.
  destruct (Qlt_le_dec a b) as [|Hle]; [done|].
  apply Qle_bool_iff in Hle. congruence.
Qed.

Lemma argMin_from_least {T} (argFn : T -> number) values : forall minValue,
  let r := argMin_from argFn minValue values in
  r ∈ minValue :: values
  /\ forall x, x ∈ minValue :: values -> (argFn r <= argFn x)%Q.
Proof.
  induction values as [|v values IH]; intros m; simpl.
  - split; [left|]. intros x ->%list_elem_of_singleton. lra.
  - destruct (num_lt (argFn v) (argFn m)) eqn:E.
    + apply num_lt_true in E. destruct (IH v) as [Hin Hle]. split.
      * apply elem_of_cons in Hin as [->|Hin]; [right; left|by do 2 right].
      * intros x [->|[->|Hx]%elem_of_cons]%elem_of_cons.
        -- specialize (Hle v ltac:(left)). lra.
        -- apply Hle. left.
        -- apply Hle. by right.
    + apply num_lt_false in E. destruct (IH m) as [Hin Hle]. split.
      * apply elem_of_cons in Hin as [->|Hin]; [left|by do 2 right].
      * intros x [->|[->|Hx]%elem_of_cons]%elem_of_cons.
        -- apply Hle. left.
        -- specialize (Hle m ltac:(left)). lra.
        -- apply Hle. by right.
Qed.



(** ** Prop validation *)

Lemma anyInvalidChildren_existsb cs : forall flag,
  foldl (fun acc child => if is_invalid_child child then true else acc)
        flag cs
  = flag || existsb is_invalid_child cs.
Proof.
  induction cs as [|c cs IH]; intros flag; simpl.
  - by rewrite orb_false_r.
  - rewrite IH. destruct (is_invalid_child c), flag; done.
Qed.

Lemma invalid_child_iff cs :
  existsb is_invalid_child cs = true <-> ChildOther ∈ cs.
Proof.
  rewrite existsb_exists. split.
  - intros (c & Hin & Hc). destruct c; try done. by apply list_elem_of_In.
  - intros Hin. exists ChildOther. split; [by apply list_elem_of_In|done].
Qed.

(** C2, as amended.  [validateProps] throws exactly when [stepSize <= 0], or
    [labelStepSize <= 0], or some child is present that is not a
    [MultiSlider.Handle] element; in every other case it returns. *)
Theorem validateProps_throws_iff props :
  (throws (validateProps props)
   <-> (stepSize props <= 0)%Q \/ (labelStepSize props <= 0)%Q
       \/ ChildOther ∈ children props)
  /\ (throws (validateProps props) \/ validateProps props = Returns tt).
Proof.
  unfold validateProps, num_le. rewrite anyInvalidChildren_existsb. simpl.
  destruct (Qle_bool (stepSize props) 0) eqn:E1.
  { apply Qle_bool_iff in E1. simpl. split; [|by left]. split; auto. }
  destruct (Qle_bool (labelStepSize props) 0) eqn:E2.
  { apply Qle_bool_iff in E2. simpl. split; [|by left]. split; auto. }
  assert (H1 : ~ (stepSize props <= 0)%Q)
    by (rewrite <- Qle_bool_iff; congruence).
  assert (H2 : ~ (labelStepSize props <= 0)%Q)
    by (rewrite <- Qle_bool_iff; congruence).
  destruct (existsb is_invalid_child (children props)) eqn:E3; simpl.
  - apply invalid_child_iff in E3. split; [|by left]. split; auto.
  - split; [|by right]. split; [done|].
    intros [?|[?|Hin%invalid_child_iff]]; [done|done|congruence].
Qed.

(** C2 as the specification words it fails: with both step sizes at 1 and a
    child that is no handle, [validateProps] throws all the same. *)
Lemma validateProps_throws_for_child : ~ throws_only_for_steps three_push.
Proof.
  unfold throws_only_for_steps. intros [Hthrows _].
  destruct Hthrows as [H|H]; [exact I|vm_compute in H..]; by apply H.
Qed.

(** ** The windowOverride validators *)

Lemma is_nullish_iff m : is_nullish m = true <-> m <> MPresent.
Proof. destruct m; simpl; split; done. Qed.

Lemma lacks_member_iff w :
  is_nullish (document w) || is_nullish (location w)
  || is_nullish (alert w) || is_nullish (setInterval w) = true
  <-> lacks_member w.
Proof.
  unfold lacks_member. rewrite !orb_true_iff, !is_nullish_iff. tauto.
Qed.

(** C9.  Each of the two validators returns [undefined] for a
    [windowOverride] that is [null] or [undefined], returns its error exactly
    when the value is an object lacking one of [document], [location],
    [alert] and [setInterval], and accepts an object that has all four. *)
Theorem windowOverride_validated obj :
  ((windowOverride obj = WindowUndefined \/ windowOverride obj = WindowNull) ->
   windowOverrideContextTypes obj = None
   /\ WINDOW_OVERRIDE_REACT_CONTEXT_TYPES obj = None)
  /\ (windowOverrideContextTypes obj
      = Some WINDOW_OVERRIDE_CONTEXT_UNEXPECTED_TYPE
      <-> exists w, windowOverride obj = WindowObject w /\ lacks_member w)
  /\ (WINDOW_OVERRIDE_REACT_CONTEXT_TYPES obj
      = Some WINDOW_OVERRIDE_CONTEXT_CLASS_NAME_STRING
      <-> exists w, windowOverride obj = WindowObject w /\ lacks_member w)
  /\ (forall w, windowOverride obj = WindowObject w -> ~ lacks_member w ->
                windowOverrideContextTypes obj = None
                /\ WINDOW_OVERRIDE_REACT_CONTEXT_TYPES obj = None)
  /\ (forall e, windowOverrideContextTypes obj = Some e ->
                e = WINDOW_OVERRIDE_CONTEXT_UNEXPECTED_TYPE)
  /\ (forall e, WINDOW_OVERRIDE_REACT_CONTEXT_TYPES obj = Some e ->
                e = WINDOW_OVERRIDE_CONTEXT_CLASS_NAME_STRING).
Proof.
  unfold windowOverrideContextTypes, WINDOW_OVERRIDE_REACT_CONTEXT_TYPES.
  destruct (windowOverride obj) as [| |w]; simpl.
  - split_and!; try done; try (by intros ? [=]);
      split; try done; by intros (w & [=] & _).
  - split_and!; try done; try (by intros ? [=]);
      split; try done; by intros (w & [=] & _).
  - pose proof (lacks_member_iff w) as Hw.
    destruct (is_nullish (document w) || is_nullish (location w)
              || is_nullish (alert w) || is_nullish (setInterval w)).
    + assert (Hl : lacks_member w) by by apply Hw.
      split_and!.
      * by intros [[=]|[=]].
      * split; [by exists w|done].
      * split; [by exists w|done].
      * by intros w' [= <-] Hnot.
      * by intros e [= <-].
      * by intros e [= <-].
    + assert (Hl : ~ lacks_member w) by (intros Hl%Hw; done).
      split_and!.
      * by intros [[=]|[=]].
      * split; [done|]. by intros (w' & [= <-] & ?).
      * split; [done|]. by intros (w' & [= <-] & ?).
      * done.
      * by intros e [=].
      * by intros e [=].
Qed.

Lemma windowOverride_validated_witness :
  (windowOverride {| windowOverride := WindowNull |} = WindowUndefined
   \/ windowOverride {| windowOverride := WindowNull |} = WindowNull)
  /\ windowOverrideContextTypes {| windowOverride := WindowNull |} = None
  /\ WINDOW_OVERRIDE_REACT_CONTEXT_TYPES {| windowOverride := WindowNull |}
     = None.
Proof.
  assert (H : windowOverride {| windowOverride := WindowNull |}
              = WindowUndefined
              \/ windowOverride {| windowOverride := WindowNull |}
                 = WindowNull) by (right; reflexivity).
  split; [exact H|].
  exact (proj1 (windowOverride_validated {| windowOverride := WindowNull |}) H).
Defined.

(** ** Offset ratios *)

Section offset_ratios.
Import Doubles.

Lemma SFcompare_antisym (a b : spec_float) :
  SFcompare b a = option_map CompOpp (SFcompare a b).
Proof.
  destruct a as [[]|[]| |[] m1 e1], b as [[]|[]| |[] m2 e2];
    simpl; try reflexivity;
    rewrite (Z.compare_antisym e1 e2);
    pose proof (Pos.compare_cont_antisym m1 m2 Eq) as H; simpl in H;
    destruct (e1 ?= e2)%Z; simpl; try reflexivity;
    rewrite <- H; by destruct (Pos.compare_cont Eq m1 m2).
Qed.

Lemma SFcompare_Eq (m m' : positive) (e e' : Z) :
  SFcompare (S754_finite false m e) (S754_finite false m' e') = Some Eq ->
  S754_finite false m e = S754_finite false m' e'.
Proof.
  simpl. intros H.
  destruct (e ?= e')%Z eqn:He; try discriminate H.
  apply Z.compare_eq in He. subst e'.
  assert (Hm : (m ?= m')%positive = Eq)
    by (unfold Pos.compare; congruence).
  apply Pos.compare_eq in Hm. by subst m'.
Qed.

Lemma clamp_spec (p : spec_float) :
  (is_nan p = true -> clamp p zero one = S754_nan)
  /\ (le p zero = true -> clamp p zero one = zero)
  /\ (lt zero p = true -> lt p one = true -> clamp p zero one = p)
  /\ (le one p = true -> clamp p zero one = one)
  /\ unit_or_nan (clamp p zero one).
Proof.
  destruct p as [[]|[]| |[] m e];
    try (split_and!;
         first [discriminate | reflexivity | left; reflexivity
               | right; split; reflexivity]).
  assert (Hmax : Math_max (S754_finite false m e) zero = S754_finite false m e)
    by reflexivity.
  unfold clamp. rewrite Hmax. clear Hmax.
  pose proof (SFcompare_Eq m 4503599627370496 e (-52)) as Hone.
  fold one in Hone.
  pose proof (SFcompare_antisym (S754_finite false m e) one) as Hanti.
  assert (Hzero : le zero (S754_finite false m e) = true) by reflexivity.
  assert (Hneg : le (S754_finite false m e) zero = false) by reflexivity.
  assert (Hpos : lt zero (S754_finite false m e) = true) by reflexivity.
  assert (Hnan : is_nan (S754_finite false m e) = false) by reflexivity.
  assert (Hmin : forall y, match S754_finite false m e, one with
       | S754_zero false, S754_zero true => y
       | _, _ => S754_finite false m e
       end = S754_finite false m e) by reflexivity.
  assert (Hsome : SFcompare (S754_finite false m e) one <> None)
    by (unfold SFcompare, one; discriminate).
  revert Hone Hanti Hzero Hneg Hpos Hnan Hmin Hsome.
  generalize (S754_finite false m e).
  intros p Hone Hanti Hzero Hneg Hpos Hnan Hmin Hsome.
  unfold unit_or_nan, in_unit_interval, Math_min.
  rewrite Hnan, Hmin. clear Hmin.
  change (is_nan one) with false. cbn [orb].
  unfold lt, le, SFltb, SFleb in *. rewrite Hanti. clear Hanti.
  destruct (SFcompare p one) as [[]|] eqn:Hc; cbn [option_map CompOpp];
    [rewrite (Hone eq_refl) in *| | |done];
    split_and!; try discriminate; try reflexivity; try congruence;
    right; (split; [first [assumption|reflexivity]|]);
    first [rewrite Hc; reflexivity|reflexivity].
Qed.

Lemma getOffsetRatio_unit_or_nan (props : IMultiSliderProps)
    (state : ISliderState) (v : spec_float) :
  unit_or_nan (getOffsetRatio props state v).
Proof. unfold getOffsetRatio. apply clamp_spec. Qed.

(** The two ratios of a track fill are the offset ratios of its two stops,
    in one order or the other. *)
Lemma renderTrackFill_ratios (props : IMultiSliderProps)
    (state : ISliderState) (start end_ : spec_float) :
  exists startRatio endRatio,
    startOffset (renderTrackFill props state start end_) = startRatio
    /\ endOffset (renderTrackFill props state start end_) = sub one endRatio
    /\ (startRatio = getOffsetRatio props state start
        /\ endRatio = getOffsetRatio props state end_
        \/ startRatio = getOffsetRatio props state end_
           /\ endRatio = getOffsetRatio props state start).
Proof.
  unfold renderTrackFill, array_sort. cbn [foldr sort_insert].
  destruct (lt zero _); cbn [startOffset endOffset]; eauto 10.
Qed.

Lemma renderTracks_loop_stops (props : IMultiSliderProps)
    (state : ISliderState) (trackStops : list spec_float)
    (previous : spec_float) (fill : TrackFill) :
  fill ∈ renderTracks_loop props state previous trackStops ->
  exists start end_, fill = renderTrackFill props state start end_.
Proof.
  revert previous. induction trackStops as [|current trackStops IH];
    intros previous Hin; simpl in Hin.
  - by apply elem_of_nil in Hin.
  - apply elem_of_cons in Hin as [->|Hin]; eauto.
Qed.

(** The labels the loop pushes: the first carries the [i] and the
    [offsetRatio] the loop is entered with, each later one those of the
    label before it with one step added. *)
Lemma renderLabels_loop_labels (approxEqual : spec_float -> spec_float -> bool)
    (props : IMultiSliderProps) (stepSizeRatio : spec_float) (fuel : nat)
    (i offsetRatio : spec_float) (n : nat) (label : Label) :
  fst (renderLabels_loop approxEqual props stepSizeRatio fuel i offsetRatio)
    !! n = Some label ->
  match n with
  | O => label = {| label_key := i; label_offset := offsetRatio |}
  | S n' =>
      exists before,
        fst (renderLabels_loop approxEqual props stepSizeRatio fuel i
               offsetRatio) !! n' = Some before
        /\ label_key label = add (label_key before) (labelStepSize props)
        /\ label_offset label = add (label_offset before) stepSizeRatio
  end.
Proof.
  revert i offsetRatio n label.
  induction fuel as [|fuel IH]; intros i offsetRatio n label; [done|].
  cbn [renderLabels_loop].
  destruct (lt i (max props) || approxEqual i (max props)); [|done].
  destruct (renderLabels_loop approxEqual props stepSizeRatio fuel
              (add i (labelStepSize props)) (add offsetRatio stepSizeRatio))
    as [labels finished] eqn:Hloop.
  cbn [fst]. intros Hn.
  destruct n as [|n']; [by inversion Hn|].
  cbn [lookup list_lookup] in Hn.
  specialize (IH (add i (labelStepSize props)) (add offsetRatio stepSizeRatio)
                n' label).
  rewrite Hloop in IH. cbn [fst] in IH. specialize (IH Hn).
  destruct n' as [|n''].
  - subst label. eexists. split; [reflexivity|]. done.
  - destruct IH as (before & Hb & Hk & Ho).
    exists before. split; [exact Hb|]. done.
Qed.

(** C6, amended.  On binary64 numbers, for every slider, state, track
    element and value: [updateTickSize] stores
    [tickSizeRatio = 1 / (max - min)] and
    [tickSize = trackSize * tickSizeRatio]; [getOffsetRatio(v)] is the
    product [(v - min) * tickSizeRatio] clamped to the interval from 0 to 1,
    that is [NaN] when the product is [NaN], 0 when the product is at most
    0, the product itself when it lies strictly between 0 and 1, and 1 when
    it is at least 1; so every ratio that positions a track fill is [NaN] or
    lies between 0 and 1, the two offsets of a fill being the ratio of one
    of its stops and 1 minus the ratio of the other.  Labels do not go
    through [getOffsetRatio]: the first label is placed at 0 and each later
    one at the offset of the label before it plus
    [tickSizeRatio * labelStepSize], not clamped. *)
Theorem offset_ratios_clamped
    (approxEqual : spec_float -> spec_float -> bool)
    (props : IMultiSliderProps) (state : ISliderState) (el : HTMLElement)
    (v : spec_float) (handleValues : list spec_float) (fuel : nat) :
  let updated := updateTickSize props (Some el) state in
  let trackSize :=
    if vertical props then clientHeight el else clientWidth el in
  let product := mul (sub v (min props)) (tickSizeRatio state) in
  let labels := renderLabels_pushed approxEqual props state fuel in
  (tickSizeRatio updated = div one (sub (max props) (min props))
   /\ tickSize updated = mul trackSize (tickSizeRatio updated))
  /\ ((is_nan product = true -> getOffsetRatio props state v = S754_nan)
      /\ (le product zero = true -> getOffsetRatio props state v = zero)
      /\ (lt zero product = true -> lt product one = true ->
          getOffsetRatio props state v = product)
      /\ (le one product = true -> getOffsetRatio props state v = one)
      /\ unit_or_nan (getOffsetRatio props state v))
  /\ (forall fill, fill ∈ renderTracks props state handleValues ->
        exists startRatio endRatio,
          unit_or_nan startRatio /\ unit_or_nan endRatio
          /\ startOffset fill = startRatio
          /\ endOffset fill = sub one endRatio)
  /\ (forall label, labels !! 0%nat = Some label ->
        label_key label = min props /\ label_offset label = zero)
  /\ (forall n before label,
        labels !! n = Some before -> labels !! S n = Some label ->
        label_key label = add (label_key before) (labelStepSize props)
        /\ label_offset label
           = add (label_offset before)
               (mul (tickSizeRatio state) (labelStepSize props))).
Proof.
  intros updated trackSize product labels. split_and!.
  - reflexivity.
  - reflexivity.
  - apply clamp_spec.
  - apply clamp_spec.
  - apply clamp_spec.
  - apply clamp_spec.
  - apply getOffsetRatio_unit_or_nan.
  - intros fill Hin. unfold renderTracks in Hin.
    apply renderTracks_loop_stops in Hin as (start & end_ & ->).
    destruct (renderTrackFill_ratios props state start end_)
      as (startRatio & endRatio & Hs & He & Hor).
    exists startRatio, endRatio.
    split_and!; [| |exact Hs|exact He];
      destruct Hor as [[-> ->]|[-> ->]]; apply getOffsetRatio_unit_or_nan.
  - subst labels. unfold renderLabels_pushed.
    destruct (labelRenderer props); [done| |];
      intros label Hl; apply renderLabels_loop_labels in Hl; by subst label.
  - subst labels. unfold renderLabels_pushed.
    destruct (labelRenderer props); [done| |];
      intros n before label Hb Hl;
      apply renderLabels_loop_labels in Hl as (before' & Hb' & Hk & Ho);
      rewrite Hb in Hb'; injection Hb' as <-; done.
Qed.

Lemma offset_ratios_clamped_witness :
  let state :=
    componentDidMount wide_slider (Some sample_track) unmounted_state in
  let labels := renderLabels_pushed (fun _ _ => false) wide_slider state 3 in
  let before := {| label_key := zero; label_offset := zero |} in
  let label :=
    {| label_key := one;
       label_offset := S754_finite false 6004799503160661 (-54) |} in
  labels !! 0%nat = Some before
  /\ labels !! 1%nat = Some label
  /\ label_key label = add (label_key before) (labelStepSize wide_slider)
  /\ label_offset label
     = add (label_offset before)
         (mul (tickSizeRatio state) (labelStepSize wide_slider)).
Proof.
  intros state labels before label.
  assert (Hb : labels !! 0%nat = Some before) by (vm_compute; reflexivity).
  assert (Hl : labels !! 1%nat = Some label) by (vm_compute; reflexivity).
  split; [exact Hb|]. split; [exact Hl|].
  exact (proj2 (proj2 (proj2 (proj2
           (offset_ratios_clamped (fun _ _ => false) wide_slider state
              sample_track zero [] 3))))
           0%nat before label Hb Hl).
Defined.

(** C6 as the specification words it fails, of the labels and of the
    tracks.  Labels: the slider is mounted from 0 to 1, so
    [componentDidMount] stores the ratio 1; its parent widens it to 0 to 3,
    and the render of that update, which precedes [componentDidUpdate],
    places the third label at the ratio 2, whatever [approxEqual] is.
    Tracks: on a slider from 0 to the least positive double, [1 / (max -
    min)] is [Infinity], the product [(0 - min) * Infinity] is [NaN], and so
    is the offset of the first track fill, with the state up to date. *)
Lemma offsets_leave_unit_interval :
  (~ exists approxEqual,
       offsets_in_unit_interval approxEqual wide_slider
         (componentDidMount narrow_slider (Some sample_track) unmounted_state)
         [] 3)
  /\ (~ exists approxEqual fuel,
        offsets_in_unit_interval approxEqual tiny_slider
          (componentDidMount tiny_slider (Some sample_track) unmounted_state)
          [] fuel).
Proof.
  split.
  - intros (approxEqual & Hclaim).
    destruct Hclaim as [_ Hlabels]; [by vm_compute|].
    destruct (Hlabels {| label_key := of_Z 2; label_offset := of_Z 2 |})
      as [_ Hle].
    + apply (list_elem_of_lookup_2 _ 2). vm_compute. reflexivity.
    + vm_compute in Hle. discriminate Hle.
  - intros (approxEqual & fuel & Hclaim).
    destruct Hclaim as [Htracks _]; [by vm_compute|].
    destruct (Htracks {| startOffset := S754_nan; endOffset := zero |})
      as [[Hle _] _].
    + apply (list_elem_of_lookup_2 _ 0). vm_compute. reflexivity.
    + vm_compute in Hle. discriminate Hle.
Qed.

(** On that slider the stored ratio is [Infinity] and the offset ratio of
    [min] itself is [NaN], although [max > min]. *)
Lemma getOffsetRatio_not_a_number :
  let state :=
    componentDidMount tiny_slider (Some sample_track) unmounted_state in
  lt (min tiny_slider) (max tiny_slider) = true
  /\ tickSizeRatio state = S754_infinity false
  /\ getOffsetRatio tiny_slider state (min tiny_slider) = S754_nan.
Proof. by vm_compute. Qed.
End offset_ratios.

(** ** Determinism *)

Lemma sort_insert_map {A} (key : A -> number) (f : A -> A) x l :
  (forall a, key (f a) = key a) ->
  sort_insert (by_key key) (f x) (map f l)
  = map f (sort_insert (by_key key) x l).
Proof.
  intros Hkey. induction l as [|y l IH]; simpl; [done|].
  unfold by_key at 1 3. rewrite !Hkey.
  destruct (num_le _ _); simpl; [done|]. by rewrite IH.
Qed.

Lemma array_sort_map {A} (key : A -> number) (f : A -> A) l :
  (forall a, key (f a) = key a) ->
  array_sort (by_key key) (map f l) = map f (array_sort (by_key key) l).
Proof.
  intros Hkey. induction l as [|x l IH]; simpl; [done|].
  rewrite IH. by apply sort_insert_map.
Qed.

Lemma filter_map_bare l :
  List.filter is_interactive (map bare_handle l)
  = map bare_handle (List.filter is_interactive l).
Proof.
  induction l as [|h l IH]; simpl; [done|].
  change (is_interactive (bare_handle h)) with (is_interactive h).
  destruct (is_interactive h); simpl; by rewrite IH.
Qed.

Lemma bare_interactive_handles props :
  map bare_handle (getSortedInteractiveHandleProps props)
  = array_sort (by_key value)
      (List.filter is_interactive
         (map (fun kv => {| value := fst kv; interactionKind := snd kv;
                            handle_onChange := None;
                            handle_onRelease := None |})
              (kinds_and_values props))).
Proof.
  unfold getSortedInteractiveHandleProps, kinds_and_values.
  rewrite getSortedHandleProps_filter, <- array_sort_map by done.
  rewrite <- filter_map_bare. do 2 f_equal.
  rewrite map_map. done.
Qed.

Lemma findFirstLocked_loop_bare hp inc endIndex fuel : forall index,
  findFirstLocked_loop (map bare_handle hp) inc endIndex fuel index
  = findFirstLocked_loop hp inc endIndex fuel index.
Proof.
  induction fuel as [|fuel IH]; intros index; simpl; [done|].
  destruct (index =? endIndex + inc)%Z; [done|].
  unfold array_get. destruct (index <? 0)%Z; [done|].
  change (map bare_handle hp) with (bare_handle <$> hp).
  rewrite list_lookup_fmap.
  destruct (hp !! Z.to_nat index) as [h|]; simpl; [|done].
  change (is_push (bare_handle h)) with (is_push h).
  destruct (is_push h); simpl; [apply IH|done].
Qed.

Lemma getNewHandleValues_bare props1 props2 v k :
  map bare_handle (getSortedInteractiveHandleProps props1)
  = map bare_handle (getSortedInteractiveHandleProps props2) ->
  getNewHandleValues props1 v k = getNewHandleValues props2 v k.
Proof.
  intros Hbare. unfold getNewHandleValues, findFirstLockedHandleIndex.
  assert (Hvalues : map value (getSortedInteractiveHandleProps props1)
                    = map value (getSortedInteractiveHandleProps props2)).
  { apply (f_equal (map value)) in Hbare. by rewrite !map_map in Hbare. }
  rewrite Hvalues.
  rewrite <- (findFirstLocked_loop_bare (getSortedInteractiveHandleProps props1)).
  rewrite Hbare, findFirstLocked_loop_bare. done.
Qed.

(** ** Determinism on the store *)

Section store.
Context {B : Type}.
Implicit Types (w : Store.World) (base created : list Store.Object).

(** One step of a run, in a world whose heap is [base] followed by the
    arrays [created] since. *)
Lemma mbind_assoc {A A'} (m : Store.M A) (f : A -> Store.M A')
    (k : A' -> Store.M B) w :
  Store.mbind (Store.mbind m f) k w
  = Store.mbind m (fun a => Store.mbind (f a) k) w.
Proof. unfold Store.mbind. by destruct (m w) as [[a w']| |]. Qed.

Lemma mbind_ret {A} (a : A) (k : A -> Store.M B) w :
  Store.mbind (Store.ret a) k w = k a w.
Proof. reflexivity. Qed.

Lemma run_get_props w (h : list Store.Object)
    (k : IMultiSliderProps -> Store.M B) :
  Store.mbind Store.get_props k (Store.with_heap w h)
  = k (Store.this_props w) (Store.with_heap w h).
Proof. reflexivity. Qed.

Lemma run_alloc w base created (o : Store.Object)
    (k : Store.ref -> Store.M B) :
  Store.mbind (Store.alloc o) k (Store.with_heap w (base ++ created))
  = k (length base + length created)%nat
      (Store.with_heap w (base ++ created ++ [o])).
Proof.
  unfold Store.mbind, Store.alloc. cbn.
  by rewrite length_app, app_assoc.
Qed.

Lemma heap_lookup_created base created (i : nat) :
  (base ++ created) !! (length base + i)%nat = created !! i.
Proof. rewrite lookup_app_r by lia. f_equal. lia. Qed.

Lemma run_read_numbers w base created (i : nat) (a : list number)
    (k : list number -> Store.M B) :
  created !! i = Some (Store.Numbers a) ->
  Store.mbind (Store.read_numbers (length base + i)) k
    (Store.with_heap w (base ++ created))
  = k a (Store.with_heap w (base ++ created)).
Proof.
  intros Hi. unfold Store.mbind, Store.read_numbers. cbn.
  by rewrite heap_lookup_created, Hi.
Qed.

Lemma run_read_handles w base created (i : nat) (a : list IHandleProps)
    (k : list IHandleProps -> Store.M B) :
  created !! i = Some (Store.Handles a) ->
  Store.mbind (Store.read_handles (length base + i)) k
    (Store.with_heap w (base ++ created))
  = k a (Store.with_heap w (base ++ created)).
Proof.
  intros Hi. unfold Store.mbind, Store.read_handles. cbn.
  by rewrite heap_lookup_created, Hi.
Qed.

Lemma run_read_maybe_handles w base created (i : nat)
    (a : list (option IHandleProps))
    (k : list (option IHandleProps) -> Store.M B) :
  created !! i = Some (Store.MaybeHandles a) ->
  Store.mbind (Store.read_maybe_handles (length base + i)) k
    (Store.with_heap w (base ++ created))
  = k a (Store.with_heap w (base ++ created)).
Proof.
  intros Hi. unfold Store.mbind, Store.read_maybe_handles. cbn.
  by rewrite heap_lookup_created, Hi.
Qed.

Lemma run_write w base created (i : nat) (o : Store.Object)
    (k : unit -> Store.M B) :
  Store.mbind (Store.write (length base + i) o) k
    (Store.with_heap w (base ++ created))
  = k tt (Store.with_heap w (base ++ <[i := o]> created)).
Proof.
  unfold Store.mbind, Store.write. cbn.
  by rewrite insert_app_r.
Qed.

(** [getSortedHandleProps] creates two arrays and returns the second, which
    holds what the function of that name computes. *)
Lemma getSortedHandleProps_run w base created (props : IMultiSliderProps)
    (predicate : IHandleProps -> bool) (k : Store.ref -> Store.M B) :
  Store.mbind (Store.getSortedHandleProps props predicate) k
    (Store.with_heap w (base ++ created))
  = k (length base + S (length created))%nat
      (Store.with_heap w
         (base ++ created
          ++ [Store.MaybeHandles
                (map (fun child =>
                        match child with
                        | ChildHandle p =>
                            if predicate p then Some p else None
                        | _ => None
                        end) (children props));
              Store.Handles (getSortedHandleProps props predicate)])).
Proof.
  unfold Store.getSortedHandleProps.
  rewrite mbind_assoc, run_alloc.
  rewrite mbind_assoc.
  erewrite run_read_maybe_handles by (by apply list_lookup_middle).
  rewrite mbind_assoc, run_alloc.
  rewrite mbind_assoc.
  erewrite run_read_handles by (by apply list_lookup_middle).
  rewrite mbind_assoc, run_write, mbind_ret.
  rewrite insert_app_r_alt by lia.
  rewrite Nat.sub_diag. cbn [insert list_insert].
  rewrite length_app, <- app_assoc. cbn [length app].
  rewrite Nat.add_1_r. reflexivity.
Qed.

(** The scan reads the array of handle props and changes nothing. *)
Lemma findFirstLocked_loop_run w base created (i : nat)
    (handleProps : list IHandleProps) (inc endIndex : Z) (fuel : nat)
    (k : Z -> Store.M B) :
  created !! i = Some (Store.Handles handleProps) ->
  forall index,
    Store.mbind
      (Store.findFirstLocked_loop (length base + i) inc endIndex fuel index)
      k (Store.with_heap w (base ++ created))
    = match findFirstLocked_loop handleProps inc endIndex fuel index with
      | Returns r => k r (Store.with_heap w (base ++ created))
      | Throws e => Throws e
      | OutOfFuel => OutOfFuel
      end.
Proof.
  intros Hi. induction fuel as [|fuel IH]; intros index; [done|].
  cbn [Store.findFirstLocked_loop findFirstLocked_loop].
  destruct (index =? endIndex + inc)%Z; [done|].
  rewrite mbind_assoc. erewrite run_read_handles by exact Hi.
  destruct (array_get handleProps index) as [h|]; [|done].
  destruct (negb (is_push h)); [done|]. apply IH.
Qed.

Lemma findFirstLockedHandleIndex_run w base created (startIndex endIndex : Z)
    (k : Z -> Store.M B) :
  Store.mbind (Store.findFirstLockedHandleIndex startIndex endIndex) k
    (Store.with_heap w (base ++ created))
  = match findFirstLockedHandleIndex (Store.this_props w) startIndex
            endIndex with
    | Returns r =>
        k r
          (Store.with_heap w
             (base ++ created
              ++ [Store.MaybeHandles
                    (map (fun child =>
                            match child with
                            | ChildHandle p =>
                                if is_interactive p then Some p else None
                            | _ => None
                            end) (children (Store.this_props w)));
                  Store.Handles
                    (getSortedInteractiveHandleProps (Store.this_props w))]))
    | Throws e => Throws e
    | OutOfFuel => OutOfFuel
    end.
Proof.
  unfold Store.findFirstLockedHandleIndex, findFirstLockedHandleIndex.
  rewrite mbind_assoc, run_get_props.
  unfold Store.getSortedInteractiveHandleProps.
  rewrite mbind_assoc, getSortedHandleProps_run.
  apply findFirstLocked_loop_run.
  rewrite lookup_app_r by lia.
  by replace (S (length created) - length created)%nat with 1%nat by lia.
Qed.
End store.

(** Runs the statement at the head of a computation. *)
Ltac run_step :=
  first
    [ rewrite run_get_props
    | rewrite getSortedHandleProps_run
    | rewrite run_alloc
    | rewrite run_write
    | erewrite run_read_handles by reflexivity
    | erewrite run_read_numbers by reflexivity
    | rewrite mbind_assoc
    | rewrite mbind_ret ];
  cbn [length app insert list_insert Store.this_props Store.with_heap].

Lemma getNewHandleValues_run_created (w : Store.World)
    (h : list Store.Object) (newValue : number) (oldIndex : nat) :
  match getNewHandleValues (Store.this_props w) newValue oldIndex with
  | Returns values =>
      exists r created,
        Store.getNewHandleValues newValue oldIndex
          (Store.with_heap w (h ++ []))
        = Returns (r, Store.with_heap w (h ++ created))
        /\ (length h <= r)%nat
        /\ (h ++ created) !! r = Some (Store.Numbers values)
  | Throws e =>
      Store.getNewHandleValues newValue oldIndex (Store.with_heap w (h ++ []))
      = Throws e
  | OutOfFuel =>
      Store.getNewHandleValues newValue oldIndex (Store.with_heap w (h ++ []))
      = OutOfFuel
  end.
Proof.
  unfold Store.getNewHandleValues, getNewHandleValues,
    Store.getSortedInteractiveHandleProps.
  do 7 run_step.
  destruct (_ <? oldIndex)%nat; [reflexivity|].
  do 4 run_step.
  rewrite findFirstLockedHandleIndex_run.
  cbn [length app insert list_insert Store.this_props Store.with_heap].
  destruct (findFirstLockedHandleIndex _ _ _) as [lockIndex| |];
    cbn [bind]; [|reflexivity|reflexivity].
  destruct (lockIndex =? -1)%Z.
  - unfold Store.fillValues. do 3 run_step.
    eexists (length h + 3)%nat, _. split; [reflexivity|].
    split; [lia|]. by rewrite heap_lookup_created.
  - run_step.
    destruct (array_get _ lockIndex) as [lockValue|]; [|reflexivity].
    unfold Store.fillValues. do 3 run_step.
    eexists (length h + 2)%nat, _. split; [reflexivity|].
    split; [lia|]. by rewrite heap_lookup_created.
Qed.

(** A run of [getNewHandleValues] on the store ends as the function of that
    name does: it throws when the function throws, and when the function
    returns an array it returns a reference to an array created during the
    run that holds those values, in a world that differs from the one it
    began in only by arrays created during the run. *)
Lemma getNewHandleValues_run (w : Store.World) (newValue : number)
    (oldIndex : nat) :
  match getNewHandleValues (Store.this_props w) newValue oldIndex with
  | Returns values =>
      exists r after,
        Store.getNewHandleValues newValue oldIndex w = Returns (r, after)
        /\ Store.untouched w after
        /\ (length (Store.heap w) <= r)%nat
        /\ Store.heap after !! r = Some (Store.Numbers values)
  | Throws e => Store.getNewHandleValues newValue oldIndex w = Throws e
  | OutOfFuel => Store.getNewHandleValues newValue oldIndex w = OutOfFuel
  end.
Proof.
  pose proof (getNewHandleValues_run_created w (Store.heap w) newValue
                oldIndex) as Hrun.
  assert (Hw : Store.with_heap w (Store.heap w ++ []) = w)
    by (rewrite app_nil_r; by destruct w).
  rewrite Hw in Hrun.
  destruct (getNewHandleValues _ _ _) as [values| |]; [|done|done].
  destruct Hrun as (r & created & Hrun & Hr & Hvalues).
  exists r, (Store.with_heap w (Store.heap w ++ created)).
  split; [exact Hrun|]. split; [|by split].
  unfold Store.untouched. cbn. split_and!; eauto.
Qed.

Lemma untouched_lookup (before after : Store.World) (r : Store.ref)
    (o : Store.Object) :
  Store.untouched before after ->
  Store.heap before !! r = Some o -> Store.heap after !! r = Some o.
Proof.
  intros (_ & _ & _ & created & ->) Hr. by apply lookup_app_l_Some.
Qed.

(** C8.  The reconciliation on a store of arrays, where the code's [sort],
    index assignment and [fillValues] change arrays in place and callbacks
    would leave a trace.  For the index of a rendered handle, an evaluation
    of [getNewHandleValues] returns a reference to an array; a second
    evaluation with the same arguments, made in the world the first has
    left, returns another array with equal contents and leaves the first
    result as it is; so does an evaluation in any other world, whatever its
    heap, state, calls and other props are, provided the handle children
    have the same values and interaction kinds.  Each evaluation leaves the
    props, the state, the trace of calls and every array that existed
    untouched. *)
Theorem getNewHandleValues_deterministic (w w' : Store.World)
    (newValue : number) (oldIndex : nat) :
  kinds_and_values (Store.this_props w)
  = kinds_and_values (Store.this_props w') ->
  (oldIndex
   < length (getSortedInteractiveHandleProps (Store.this_props w)))%nat ->
  exists values r1 w1 r2 w2 r' w1',
    Store.getNewHandleValues newValue oldIndex w = Returns (r1, w1)
    /\ Store.getNewHandleValues newValue oldIndex w1 = Returns (r2, w2)
    /\ Store.getNewHandleValues newValue oldIndex w' = Returns (r', w1')
    /\ Store.heap w1 !! r1 = Some (Store.Numbers values)
    /\ Store.heap w2 !! r2 = Some (Store.Numbers values)
    /\ Store.heap w1' !! r' = Some (Store.Numbers values)
    /\ Store.heap w2 !! r1 = Some (Store.Numbers values)
    /\ r1 <> r2
    /\ Store.untouched w w1
    /\ Store.untouched w1 w2
    /\ Store.untouched w' w1'.
Proof.
  intros Hsame Hk.
  destruct (getNewHandleValues_sorted (Store.this_props w) newValue oldIndex
              Hk) as (values & Hvalues & _).
  assert (Hvalues' : getNewHandleValues (Store.this_props w') newValue
                       oldIndex = Returns values).
  { rewrite <- Hvalues. symmetry. apply getNewHandleValues_bare.
    by rewrite !bare_interactive_handles, Hsame. }
  pose proof (getNewHandleValues_run w newValue oldIndex) as Hrun1.
  rewrite Hvalues in Hrun1.
  destruct Hrun1 as (r1 & w1 & Hrun1 & Hw1 & Hr1 & Hheap1).
  pose proof (getNewHandleValues_run w1 newValue oldIndex) as Hrun2.
  rewrite (proj1 Hw1), Hvalues in Hrun2.
  destruct Hrun2 as (r2 & w2 & Hrun2 & Hw2 & Hr2 & Hheap2).
  pose proof (getNewHandleValues_run w' newValue oldIndex) as Hrun'.
  rewrite Hvalues' in Hrun'.
  destruct Hrun' as (r' & w1' & Hrun' & Hw' & Hr' & Hheap').
  exists values, r1, w1, r2, w2, r', w1'.
  split_and!; try done.
  - by apply (untouched_lookup w1 w2).
  - apply lookup_lt_Some in Hheap1. lia.
Qed.

Lemma getNewHandleValues_deterministic_witness :
  exists values r1 w1 r2 w2 r' w1',
    Store.getNewHandleValues 3%Q 2 mounted_world = Returns (r1, w1)
    /\ Store.getNewHandleValues 3%Q 2 w1 = Returns (r2, w2)
    /\ Store.getNewHandleValues 3%Q 2 other_world = Returns (r', w1')
    /\ Store.heap w1 !! r1 = Some (Store.Numbers values)
    /\ Store.heap w2 !! r2 = Some (Store.Numbers values)
    /\ Store.heap w1' !! r' = Some (Store.Numbers values)
    /\ Store.heap w2 !! r1 = Some (Store.Numbers values)
    /\ r1 <> r2
    /\ Store.untouched mounted_world w1
    /\ Store.untouched w1 w2
    /\ Store.untouched other_world w1'.
Proof.
  apply (getNewHandleValues_deterministic mounted_world other_world 3%Q 2).
  - reflexivity.
  - vm_compute. lia.
Defined.

(** In the first world of that witness the evaluation returns a new
    array, the fifth of the heap, that holds 2, 3 and 3; the array that
    existed holds what it held. *)
Lemma getNewHandleValues_worked_run :
  match Store.getNewHandleValues 3%Q 2 mounted_world with
  | Returns (r, after) =>
      r = 4%nat
      /\ Store.heap after !! 4%nat = Some (Store.Numbers [2%Q; 3%Q; 3%Q])
      /\ Store.heap after !! 0%nat = Some (Store.Numbers [9%Q; 2%Q])
  | _ => False
  end.
Proof. vm_compute. done. Qed.

(** ** Worked drags *)

(** A push handle dragged past a locked neighbour stops at the lock. *)
Example drag_past_lock :
  getNewHandleValues push_below_lock 7%Q 0 = Returns [5; 5]%Q.
Proof. reflexivity. Qed.

(** Short of the lock it moves freely. *)
Example drag_below_lock :
  getNewHandleValues push_below_lock 3%Q 0 = Returns [3; 5]%Q.
Proof. reflexivity. Qed.

(** A push handle dragged down takes the push handles it passes with it. *)
Example drag_pushes_down :
  getNewHandleValues three_push 3%Q 2 = Returns [2; 3; 3]%Q.
Proof. reflexivity. Qed.

Example drag_pushes_up :
  getNewHandleValues three_push 10%Q 0 = Returns [10; 10; 10]%Q.
Proof. reflexivity. Qed.

(** The calls the change handler of the third handle makes for that drag. *)
Example drag_calls :
  getHandlerForIndex three_push 2 (Some handleChange) 3%Q
  = Returns [SliderOnChange 1 [2; 3; 3]%Q;
             HandleOnChange 1 7 (Some 3%Q);
             HandleOnChange 2 7 (Some 3%Q)].
Proof. reflexivity. Qed.

(** Dropping the handle where it is calls nothing. *)
Example drag_nowhere :
  getHandlerForIndex three_push 2 (Some handleChange) 9%Q = Returns [].
Proof. reflexivity. Qed.

(** * Further properties of the code *)

(** ** What a drag returns *)

Lemma filled_with_elem l a b w r x :
  filled_with l a b w r -> x ∈ r -> x = w \/ x ∈ l.
Proof.
  intros [Hlen Hr] (i & Hi)%list_elem_of_lookup.
  assert (is_Some (l !! i)) as [y Hy].
  { apply lookup_lt_is_Some. rewrite <- Hlen. by eapply lookup_lt_Some. }
  rewrite (Hr _ _ Hy) in Hi. injection Hi as <-.
  destruct (between a b i); [by left|right].
  apply list_elem_of_lookup. by exists i.
Qed.

(** X1.  A drag of a rendered handle returns one value per interactive handle,
    and each of them is the requested value or one of the current values:
    the reconciliation makes up no number. *)
Theorem getNewHandleValues_entries props v (k : nat) :
  let oldValues := map value (getSortedInteractiveHandleProps props) in
  (k < length oldValues)%nat ->
  exists r,
    getNewHandleValues props v k = Returns r
    /\ length r = length oldValues
    /\ forall x, x ∈ r -> x = v \/ x ∈ oldValues.
Proof.
  intros old Hk.
  assert (Hlen : length old = length (getSortedInteractiveHandleProps props))
    by apply length_map.
  destruct (getNewHandleValues_spec props v k)
    as (sorted & j & r & Hperm & _ & _ & Hr & Hcases); [lia|].
  exists r. split; [done|].
  destruct Hcases as [[_ Hfill]|(lock & lockValue & _ & _ & _ & Hv & Hfill)].
  - split.
    + rewrite (proj1 Hfill), (Permutation_length Hperm), length_insert. done.
    + intros x Hx. destruct (filled_with_elem _ _ _ _ _ _ Hfill Hx) as [?|Hin];
        [by left|].
      rewrite Hperm in Hin.
      apply list_elem_of_lookup in Hin as (i & Hi).
      apply list_lookup_insert_Some in Hi as [(_ & -> & _)|(_ & Hi)];
        [by left|right].
      apply list_elem_of_lookup. by exists i.
  - split; [exact (proj1 Hfill)|].
    intros x Hx. right.
    destruct (filled_with_elem _ _ _ _ _ _ Hfill Hx) as [->|Hin]; [|done].
    apply list_elem_of_lookup. by exists lock.
Qed.

Lemma getNewHandleValues_entries_witness :
  (2 < length (map value (getSortedInteractiveHandleProps three_push)))%nat
  /\ exists r,
       getNewHandleValues three_push 3%Q 2 = Returns r
       /\ length r
          = length (map value (getSortedInteractiveHandleProps three_push))
       /\ forall x, x ∈ r ->
            x = 3%Q
            \/ x ∈ map value (getSortedInteractiveHandleProps three_push).
Proof.
  assert (H : (2 < length (map value
                             (getSortedInteractiveHandleProps three_push)))%nat)
    by (vm_compute; lia).
  split; [exact H|].
  exact (getNewHandleValues_entries three_push 3%Q 2 H).
Defined.

(** ** The handlers of the rendered handles *)



(** ** Where the dragged handle lands *)

Lemma count_below_Permutation v l1 l2 :
  l1 ≡ₚ l2 -> count_below v l1 = count_below v l2.
Proof.
  unfold count_below.
  induction 1 as [|x l1 l2 _ IH|x y l|l1 l2 l3 _ IH1 _ IH2]; simpl.
  - done.
  - destruct (num_lt x v); simpl; by rewrite IH.
  - destruct (num_lt x v), (num_lt y v); done.
  - congruence.
Qed.

Lemma count_below_none v l :
  Forall (fun x => (v <= x)%Q) l -> count_below v l = 0%nat.
Proof.
  unfold count_below. induction 1 as [|x l Hx _ IH]; simpl; [done|].
  destruct (num_lt x v) eqn:E; [|done].
  apply num_lt_true in E. lra.
Qed.

(** In a sorted array the entries below [v] are the first [count_below]
    ones. *)
Lemma count_below_sorted v s :
  sorted_values s ->
  forall i x, s !! i = Some x -> ((x < v)%Q <-> (i < count_below v s)%nat).
Proof.
  induction 1 as [|y s Hs IH Hy]; intros i x Hx; [done|].
  unfold count_below in *. simpl.
  destruct (num_lt y v) eqn:E.
  - apply num_lt_true in E. destruct i as [|i]; simpl in *.
    + injection Hx as <-. split; [lia|done].
    + rewrite (IH i x Hx). lia.
  - apply num_lt_false in E.
    assert (Hall : Forall (fun z => (v <= z)%Q) (y :: s)).
    { constructor; [done|]. eapply Forall_impl; [exact Hy|].
      simpl. intros z Hz. lra. }
    pose proof (count_below_none v s (Forall_inv_tail Hall)) as Hz.
    unfold count_below in Hz. rewrite Hz.
    eapply Forall_lookup_1 in Hall; [|exact Hx]. simpl in Hall.
    split; [lra|lia].
Qed.

Lemma first_position_count s v j :
  sorted_values s -> first_position s v j -> j = count_below v s.
Proof.
  intros Hs [(x & Hx & Hxv) Hbefore].
  pose proof (count_below_sorted v s Hs) as Hcount.
  assert (~ (j < count_below v s)%nat).
  { rewrite <- (Hcount j x Hx). lra. }
  destruct (Nat.lt_ge_cases (count_below v s) j) as [Hlt|]; [|lia].
  assert (is_Some (s !! count_below v s)) as [y Hy].
  { apply lookup_lt_is_Some. apply lookup_lt_Some in Hx. lia. }
  pose proof (proj1 (StronglySorted_lookup_iff _ _) Hs _ _ _ _ Hlt Hy Hx).
  assert (~ (y == v)%Q) by eauto.
  assert (y < v)%Q by lra.
  apply (Hcount _ _ Hy) in H2. lia.
Qed.

Lemma count_below_insert v l : forall k x w,
  l !! k = Some x ->
  (count_below v (<[k := w]> l) + (if num_lt x v then 1 else 0)
   = count_below v l + (if num_lt w v then 1 else 0))%nat.
Proof.
  unfold count_below.
  induction l as [|y l IH]; intros k x w Hx; [done|].
  destruct k as [|k]; simpl in *.
  - injection Hx as ->. destruct (num_lt x v), (num_lt w v); simpl; lia.
  - specialize (IH k x w Hx).
    destruct (num_lt y v), (num_lt x v), (num_lt w v); simpl in *; lia.
Qed.

Lemma num_lt_irrefl v : num_lt v v = false.
Proof.
  unfold num_lt. apply negb_false_iff, Qle_bool_iff. lra.
Qed.

Lemma scan_is_the_way props v (k j : nat) x :
  let handleProps := getSortedInteractiveHandleProps props in
  let oldValues := map value handleProps in
  oldValues !! k = Some x ->
  j = count_below v (<[k := v]> oldValues) ->
  (j < length handleProps)%nat ->
  forall i : nat,
    in_scan (Z.of_nat k) (Z.of_nat j) (Z.of_nat i)
    <-> in_the_way handleProps k v i.
Proof.
  intros hp old Hx Hj Hjn i.
  assert (Hold : sorted_values old)
    by apply sorted_by_value_values, interactive_sorted.
  pose proof (proj1 (StronglySorted_lookup_iff _ _) Hold) as Hle.
  assert (Hk : (k < length hp)%nat).
  { apply lookup_lt_Some in Hx. unfold old in Hx. by rewrite length_map in Hx. }
  pose proof (count_below_insert v old k x v Hx) as Hcount.
  rewrite num_lt_irrefl in Hcount.
  pose proof (count_below_sorted v old Hold k x Hx) as Hkc.
  assert (Hat : forall h, hp !! i = Some h -> old !! i = Some (value h)).
  { intros h Hh. unfold old. change (map value hp) with (value <$> hp).
    by rewrite list_lookup_fmap, Hh. }
  unfold in_scan, in_the_way. split.
  - intros Hin.
    destruct (lookup_lt_is_Some_2 hp i) as [h Hh]; [lia|].
    exists h. split; [done|].
    pose proof (count_below_sorted v old Hold i _ (Hat h Hh)) as Hic.
    destruct (num_lt x v) eqn:E.
    + apply num_lt_true in E.
      assert (k < count_below v old)%nat by (by apply Hkc).
      left. split; [lia|]. apply Hic. lia.
    + apply num_lt_false in E.
      assert (~ (k < count_below v old)%nat) by (rewrite <- Hkc; lra).
      right. split; [lia|].
      assert (~ (value h < v)%Q) by (rewrite Hic; lia). lra.
  - intros (h & Hh & Hway).
    pose proof (count_below_sorted v old Hold i _ (Hat h Hh)) as Hic.
    destruct Hway as [[Hki Hlt]|[Hik Hge]].
    + pose proof (Hle k i x (value h) Hki Hx (Hat h Hh)).
      assert (k < count_below v old)%nat by (apply Hkc; lra).
      assert (i < count_below v old)%nat by (by apply Hic).
      destruct (num_lt x v) eqn:E; [lia|].
      apply num_lt_false in E. lra.
    + pose proof (Hle i k (value h) x Hik (Hat h Hh) Hx).
      assert (~ (k < count_below v old)%nat) by (rewrite <- Hkc; lra).
      assert (~ (i < count_below v old)%nat) by (rewrite <- Hic; lra).
      destruct (num_lt x v) eqn:E; [|lia].
      apply num_lt_true in E. lra.
Qed.

(** X2.  Where the dragged handle lands.  When every handle it has to pass
    on its way to the requested value is a push handle, it lands on the
    requested value.  Otherwise it lands on the value of the nearest handle
    in its way that is not a push handle.  Either way it lands between where
    it was and where it was asked to go, both included. *)
Theorem dragged_handle_lands_between props v (k : nat) x :
  let handleProps := getSortedInteractiveHandleProps props in
  let oldValues := map value handleProps in
  oldValues !! k = Some x ->
  exists r y,
    getNewHandleValues props v k = Returns r
    /\ r !! k = Some y
    /\ (Qmin x v <= y /\ y <= Qmax x v)%Q
    /\ ((forall i, in_the_way handleProps k v i ->
                   push_at handleProps (Z.of_nat i))
        /\ y = v
        \/ exists lock h,
             in_the_way handleProps k v lock
             /\ handleProps !! lock = Some h
             /\ interactionKind h <> Some PUSH
             /\ (forall i, strictly_between (Z.of_nat k) (Z.of_nat lock) i ->
                           push_at handleProps i)
             /\ y = value h).
Proof.
  intros hp old Hx.
  assert (Hold : sorted_values old)
    by apply sorted_by_value_values, interactive_sorted.
  assert (Hk : (k < length (getSortedInteractiveHandleProps props))%nat).
  { apply lookup_lt_Some in Hx. unfold old in Hx. by rewrite length_map in Hx. }
  destruct (getNewHandleValues_spec props v k Hk)
    as (sorted & j & r & Hperm & Hsorted & Hfirst & Hr & Hcases).
  fold hp in Hcases. fold old in Hperm, Hcases.
  pose proof (first_position_count _ _ _ Hsorted Hfirst) as Hj.
  rewrite (count_below_Permutation _ _ _ Hperm) in Hj.
  assert (Hjn : (j < length hp)%nat).
  { apply first_position_lt in Hfirst.
    rewrite (Permutation_length Hperm), length_insert in Hfirst.
    unfold old in Hfirst. by rewrite length_map in Hfirst. }
  pose proof (scan_is_the_way props v k j x Hx Hj Hjn) as Hway.
  fold hp in Hway.
  pose proof (Q.le_min_l x v). pose proof (Q.le_min_r x v).
  pose proof (Q.le_max_l x v). pose proof (Q.le_max_r x v).
  exists r.
  destruct Hcases as [[Hall Hfill]
                     |(lock & y & Hin & Hlocked & Hbefore & Hy & Hfill)].
  - exists v. split; [done|].
    assert (is_Some (sorted !! k)) as [z Hz].
    { apply lookup_lt_is_Some.
      rewrite (Permutation_length Hperm), length_insert.
      by eapply lookup_lt_Some. }
    split.
    { rewrite (proj2 Hfill _ _ Hz).
      replace (between (Z.of_nat k) (Z.of_nat j) k) with true; [done|].
      symmetry. apply between_spec. lia. }
    split; [lra|]. left. split; [|done].
    intros i Hi. apply Hall. by apply Hway.
  - exists y. split; [done|]. split.
    { rewrite (proj2 Hfill _ _ Hx).
      replace (between (Z.of_nat k) (Z.of_nat lock) k) with true; [done|].
      symmetry. apply between_spec. lia. }
    apply Hway in Hin. destruct Hlocked as (h & Hh & Hkind).
    rewrite array_get_of_nat in Hh.
    assert (Hyh : y = value h).
    { unfold old in Hy. change (map value hp) with (value <$> hp) in Hy.
      rewrite list_lookup_fmap, Hh in Hy. by injection Hy as <-. }
    pose proof (proj1 (StronglySorted_lookup_iff _ _) Hold) as Hle.
    split.
    + destruct Hin as (h' & Hh' & Hcase).
      rewrite Hh in Hh'. injection Hh' as <-. rewrite <- Hyh in Hcase.
      destruct Hcase as [[Hlt ?]|[Hlt ?]].
      * pose proof (Hle k lock x y Hlt Hx Hy). lra.
      * pose proof (Hle lock k y x Hlt Hy Hx). lra.
    + right. exists lock, h. by split_and!.
Qed.

Lemma dragged_handle_lands_between_witness :
  map value (getSortedInteractiveHandleProps push_below_lock) !! 0%nat
  = Some 1%Q
  /\ exists r y,
       getNewHandleValues push_below_lock 7%Q 0 = Returns r
       /\ r !! 0%nat = Some y
       /\ (Qmin 1 7 <= y /\ y <= Qmax 1 7)%Q.
Proof.
  assert (H : map value (getSortedInteractiveHandleProps push_below_lock)
              !! 0%nat = Some 1%Q) by reflexivity.
  split; [exact H|].
  destruct (dragged_handle_lands_between push_below_lock 7%Q 0 1%Q H)
    as (r & y & Hr & Hy & Hbounds & _).
  by exists r, y.
Defined.

(** ** A drag that goes nowhere *)

Lemma array_sort_id {A} (key : A -> number) l :
  StronglySorted (key_le key) l -> array_sort (by_key key) l = l.
Proof.
  induction 1 as [|x l _ IH Hx]; simpl; [done|].
  rewrite IH. by apply sort_insert_least.
Qed.

Lemma sort_numbers_id (l : list number) :
  sorted_values l -> array_sort (fun left right => (left - right)%Q) l = l.
Proof. apply (array_sort_id (fun x : number => x)). Qed.

Lemma same_values_lookup (a b : list number) :
  length a = length b ->
  (forall i x y, a !! i = Some x -> b !! i = Some y -> (x == y)%Q) ->
  same_values a b.
Proof. intros Hlen Hall. by apply Forall2_same_length_lookup. Qed.

(** X3.  A handle dragged onto the value it has leaves all values as they are,
    and its change handler calls nothing: neither [props.onChange] nor any
    handle's [onChange]. *)
Theorem drag_onto_own_value props v (k : nat) x :
  let oldValues := map value (getSortedInteractiveHandleProps props) in
  oldValues !! k = Some x -> (x == v)%Q ->
  exists r,
    getNewHandleValues props v k = Returns r
    /\ same_values r oldValues
    /\ getHandlerForIndex props k (Some handleChange) v = Returns [].
Proof.
  intros old Hx Hxv.
  set (hp := getSortedInteractiveHandleProps props) in *.
  assert (Hold : sorted_values old)
    by apply sorted_by_value_values, interactive_sorted.
  pose proof (proj1 (StronglySorted_lookup_iff _ _) Hold) as Hle.
  assert (Hlen : length old = length hp) by apply length_map.
  assert (Hk : (k < length old)%nat) by (by eapply lookup_lt_Some).
  set (new := <[k := v]> old).
  assert (Hnew : forall i y, new !! i = Some y ->
                   exists o, old !! i = Some o /\ (y == o)%Q
                             /\ (i <> k -> y = o)).
  { intros i y Hy. unfold new in Hy.
    apply list_lookup_insert_Some in Hy as [(<- & <- & _)|(Hne & Hy)].
    - exists x. split; [done|]. split; [by symmetry|done].
    - exists y. split; [done|]. split; [reflexivity|done]. }
  assert (Hsorted : sorted_values new).
  { apply StronglySorted_lookup_iff. intros i i' y y' Hlt Hy Hy'.
    destruct (Hnew _ _ Hy) as (o & Ho & Hyo & _).
    destruct (Hnew _ _ Hy') as (o' & Ho' & Hyo' & _).
    pose proof (Hle _ _ _ _ Hlt Ho Ho'). lra. }
  pose proof (proj1 (StronglySorted_lookup_iff _ _) Hsorted) as Hle'.
  assert (Hnk : new !! k = Some v) by (by apply list_lookup_insert_eq).
  destruct (indexOf_from_first new v 0) as (j & Hj & Hfirst).
  { exists v. split; [|reflexivity]. apply list_elem_of_lookup. by exists k. }
  assert (Hjk : (j <= k)%nat).
  { destruct (Nat.le_gt_cases j k) as [|Hgt]; [done|].
    destruct (proj2 Hfirst k v Hgt Hnk). reflexivity. }
  assert (Hstretch : forall i o, (j <= i <= k)%nat -> old !! i = Some o ->
                       (o == v)%Q).
  { intros i o Hi Ho. destruct (decide (i = k)) as [->|Hne].
    - rewrite Hx in Ho. by injection Ho as <-.
    - assert (Hni : new !! i = Some o)
        by (unfold new; by rewrite list_lookup_insert_ne).
      destruct Hfirst as [(z & Hz & Hzv) _].
      destruct (decide (i = j)) as [->|Hnj].
      + rewrite Hz in Hni. by injection Hni as <-.
      + pose proof (Hle' j i z o ltac:(lia) Hz Hni).
        pose proof (Hle' i k o v ltac:(lia) Hni Hnk). lra. }
  assert (Hret : exists r, getNewHandleValues props v k = Returns r
                           /\ same_values r old).
  { unfold getNewHandleValues. fold hp. fold old.
    destruct (Nat.ltb_spec (length old) k) as [|_]; [lia|].
    rewrite array_set_in_range by done. fold new.
    rewrite (sort_numbers_id new Hsorted).
    unfold indexOf. rewrite Hj, Z.add_0_l.
    destruct (findFirstLockedHandleIndex_spec props (Z.of_nat k) (Z.of_nat j))
      as (lockIndex & -> & Hscan); fold hp.
    { lia. }
    { apply first_position_lt in Hfirst. unfold new in Hfirst.
      rewrite length_insert in Hfirst. lia. }
    cbn [bind].
    destruct Hscan as [[-> _]|(Hin & _ & _)].
    - simpl.
      rewrite fillValues_inside by (unfold new; rewrite length_insert; lia).
      eexists. split; [done|].
      apply same_values_lookup.
      { unfold new. by rewrite length_imap, length_insert. }
      intros i y o Hy Ho.
      rewrite list_lookup_imap in Hy.
      destruct (new !! i) as [z|] eqn:Hz; [|done].
      simpl in Hy. injection Hy as <-.
      fold (between (Z.of_nat k) (Z.of_nat j) i).
      destruct (between (Z.of_nat k) (Z.of_nat j) i) eqn:Hb.
      + apply between_spec in Hb. symmetry. apply (Hstretch i); [lia|done].
      + destruct (Hnew _ _ Hz) as (o' & Ho' & Hzo & _). congruence.
    - unfold in_scan in Hin.
      destruct (Z.eqb_spec lockIndex (-1)); [lia|].
      destruct (array_get_in_range old lockIndex) as [lockValue Hv]; [lia|].
      rewrite Hv. apply array_get_Some in Hv as [_ Hv].
      rewrite fillValues_inside by lia.
      eexists. split; [done|].
      assert (HL : (lockValue == v)%Q)
        by (apply (Hstretch (Z.to_nat lockIndex)); [lia|done]).
      apply same_values_lookup.
      { by rewrite length_imap. }
      intros i y o Hy Ho.
      rewrite list_lookup_imap, Ho in Hy.
      simpl in Hy. injection Hy as <-.
      fold (between (Z.of_nat k) lockIndex i).
      destruct (between (Z.of_nat k) lockIndex i) eqn:Hb; [|reflexivity].
      apply between_spec in Hb.
      rewrite HL. symmetry. apply (Hstretch i); [lia|done]. }
  destruct Hret as (r & Hr & Hsame).
  exists r. split; [done|]. split; [done|].
  unfold getHandlerForIndex. rewrite Hr. cbn [bind]. f_equal.
  unfold handleChange. fold hp. fold old.
  by rewrite (proj2 (arraysEqual_spec r old) Hsame).
Qed.

Lemma drag_onto_own_value_witness :
  map value (getSortedInteractiveHandleProps three_push) !! 1%nat = Some 5%Q
  /\ (5 == 10 # 2)%Q
  /\ getHandlerForIndex three_push 1 (Some handleChange) (10 # 2)%Q
     = Returns [].
Proof.
  assert (H : map value (getSortedInteractiveHandleProps three_push) !! 1%nat
              = Some 5%Q) by reflexivity.
  assert (H' : (5 == 10 # 2)%Q) by reflexivity.
  split; [exact H|]. split; [exact H'|].
  destruct (drag_onto_own_value three_push (10 # 2)%Q 1 5%Q H H')
    as (r & _ & _ & Hcalls).
  exact Hcalls.
Defined.

(** ** The scan at and beyond the ends of the handle list *)

Lemma push_at_is_push hp i :
  push_at hp i -> exists h, array_get hp i = Some h /\ is_push h = true.
Proof.
  intros (h & Hh & Hkind). exists h. split; [done|].
  unfold is_push. by rewrite Hkind.
Qed.

Lemma findFirstLocked_loop_past_end hp endIndex (m : nat) :
  forall index fuel,
    (0 <= index)%Z ->
    (index + Z.of_nat m = Z.of_nat (length hp))%Z ->
    (m < fuel)%nat ->
    (Z.of_nat (length hp) <= endIndex)%Z ->
    (forall i, (index <= i < Z.of_nat (length hp))%Z -> push_at hp i) ->
    findFirstLocked_loop hp 1 endIndex fuel index = Throws TypeError.
Proof.
  induction m as [|m IH]; intros index fuel Hpos Hm Hfuel Hend Hpush;
    (destruct fuel as [|fuel]; [lia|]); cbn [findFirstLocked_loop];
    (destruct (Z.eqb_spec index (endIndex + 1)); [lia|]).
  - unfold array_get. destruct (Z.ltb_spec index 0); [done|].
    rewrite lookup_ge_None_2 by lia. done.
  - destruct (push_at_is_push hp index) as (h & -> & ->); [apply Hpush; lia|].
    cbn [negb]. apply IH; try lia. intros i Hi. apply Hpush. lia.
Qed.

Lemma findFirstLocked_loop_before_start hp endIndex (m : nat) :
  forall index fuel,
    (index + 1 = Z.of_nat m)%Z ->
    (m < fuel)%nat ->
    (endIndex < 0)%Z ->
    (forall i, (0 <= i <= index)%Z -> push_at hp i) ->
    findFirstLocked_loop hp (-1) endIndex fuel index = Throws TypeError.
Proof.
  induction m as [|m IH]; intros index fuel Hm Hfuel Hend Hpush;
    (destruct fuel as [|fuel]; [lia|]); cbn [findFirstLocked_loop];
    (destruct (Z.eqb_spec index (endIndex + -1)); [lia|]).
  - unfold array_get. by destruct (Z.ltb_spec index 0); [|lia].
  - destruct (push_at_is_push hp index) as (h & -> & ->); [apply Hpush; lia|].
    cbn [negb]. apply IH; try lia. intros i Hi. apply Hpush. lia.
Qed.

(** X5.  A scan from an index to itself returns [-1] without reading a handle,
    wherever the index lies.  A scan that is sent past either end of the
    handle list and meets only push handles on its way reads
    [handleProps[index]] outside the list and fails with a [TypeError]. *)
Theorem findFirstLockedHandleIndex_ends props :
  let handleProps := getSortedInteractiveHandleProps props in
  (forall index, findFirstLockedHandleIndex props index index = Returns (-1)%Z)
  /\ (forall startIndex endIndex,
        (0 <= startIndex < Z.of_nat (length handleProps))%Z ->
        (Z.of_nat (length handleProps) <= endIndex)%Z ->
        (forall i, (startIndex < i < Z.of_nat (length handleProps))%Z ->
                   push_at handleProps i) ->
        findFirstLockedHandleIndex props startIndex endIndex
        = Throws TypeError)
  /\ (forall startIndex endIndex,
        (0 <= startIndex < Z.of_nat (length handleProps))%Z ->
        (endIndex < 0)%Z ->
        (forall i, (0 <= i < startIndex)%Z -> push_at handleProps i) ->
        findFirstLockedHandleIndex props startIndex endIndex
        = Throws TypeError).
Proof.
  intros hp. unfold findFirstLockedHandleIndex. fold hp. split_and!.
  - intros index. rewrite Z.ltb_irrefl. cbn [findFirstLocked_loop].
    by rewrite Z.eqb_refl.
  - intros s e Hs He Hpush.
    destruct (Z.ltb_spec s e); [|lia].
    apply (findFirstLocked_loop_past_end hp e
             (Z.to_nat (Z.of_nat (length hp) - (s + 1)))); try lia.
    intros i Hi. apply Hpush. lia.
  - intros s e Hs He Hpush.
    destruct (Z.ltb_spec s e); [lia|].
    apply (findFirstLocked_loop_before_start hp e (Z.to_nat s)); try lia.
    intros i Hi. apply Hpush. lia.
Qed.

Lemma findFirstLockedHandleIndex_ends_witness :
  findFirstLockedHandleIndex three_push 1 7 = Throws TypeError.
Proof.
  refine (proj1 (proj2 (findFirstLockedHandleIndex_ends three_push))
            1%Z 7%Z _ _ _).
  - vm_compute. split; [discriminate|reflexivity].
  - vm_compute. discriminate.
  - intros i Hi.
    pose proof (eq_refl : Z.of_nat (length (getSortedInteractiveHandleProps
                                               three_push)) = 3%Z) as Hlen.
    assert (i = 2%Z) as -> by lia.
    eexists. split; reflexivity.
Defined.

(** ** Which error [validateProps] throws *)

Lemma no_invalid_child cs :
  existsb is_invalid_child cs = false <-> ChildOther ∉ cs.
Proof.
  rewrite <- invalid_child_iff. by destruct (existsb is_invalid_child cs).
Qed.

(** X8.  The three checks of [validateProps] run in order and the first that
    fails decides the error: the step size before the label step size, and
    both before the children.  Props pass exactly when both step sizes are
    positive and every child is a handle or empty. *)
Theorem validateProps_first_failure props :
  (validateProps props = Throws SLIDER_ZERO_STEP
   <-> (stepSize props <= 0)%Q)
  /\ (validateProps props = Throws SLIDER_ZERO_LABEL_STEP
      <-> (0 < stepSize props)%Q /\ (labelStepSize props <= 0)%Q)
  /\ (validateProps props = Throws MULTISLIDER_INVALID_CHILD
      <-> (0 < stepSize props)%Q /\ (0 < labelStepSize props)%Q
          /\ ChildOther ∈ children props)
  /\ (validateProps props = Returns tt
      <-> (0 < stepSize props)%Q /\ (0 < labelStepSize props)%Q
          /\ ChildOther ∉ children props).
Proof.
  unfold validateProps, num_le. rewrite anyInvalidChildren_existsb. simpl.
  destruct (Qle_bool (stepSize props) 0) eqn:E1;
    [apply Qle_bool_iff in E1
    |assert (H1 : (0 < stepSize props)%Q)
       by (apply Qnot_le_lt; rewrite <- Qle_bool_iff; congruence);
     destruct (Qle_bool (labelStepSize props) 0) eqn:E2;
       [apply Qle_bool_iff in E2
       |assert (H2 : (0 < labelStepSize props)%Q)
          by (apply Qnot_le_lt; rewrite <- Qle_bool_iff; congruence);
        destruct (existsb is_invalid_child (children props)) eqn:E3;
          [apply invalid_child_iff in E3|apply no_invalid_child in E3]]];
    simpl; split_and!;
    (split;
     [intros Heq; first [discriminate Heq | split_and?; first [lra | tauto]]
     |intros Hs; first [reflexivity
                       | exfalso; destruct_and?; first [lra | tauto]]]).
Qed.

(** ** Whom a change and a release are reported to *)

Lemma handle_calls_in {A} (f : nat -> A -> list Invocation) (l : list A)
    i x e :
  l !! i = Some x -> e ∈ f i x -> e ∈ concat (imap f l).
Proof.
  intros Hx He. apply list_elem_of_In, in_concat.
  exists (f i x). split; apply list_elem_of_In; [|done].
  by apply elem_of_lookup_imap_2.
Qed.

(** X6.  When the new values are not the current ones, [handleChange] calls
    [props.onChange], if there is one, once and before anything else, with
    the whole array; and it calls the [onChange] of every handle that has
    one and whose entry differs, with the new entry. *)
Theorem handleChange_reports_all props newValues :
  let handleProps := getSortedInteractiveHandleProps props in
  let oldValues := map value handleProps in
  ~ same_values newValues oldValues ->
  (forall cb, onChange props = Some cb ->
     exists rest,
       handleChange props newValues = SliderOnChange cb newValues :: rest
       /\ forall e, e ∈ rest -> exists i cb' x, e = HandleOnChange i cb' x)
  /\ (forall i h cb,
        handleProps !! i = Some h -> handle_onChange h = Some cb ->
        differ_at oldValues newValues i ->
        HandleOnChange i cb (newValues !! i) ∈ handleChange props newValues).
Proof.
  intros hp old Hdiff.
  assert (Hne : arraysEqual newValues old = false).
  { destruct (arraysEqual newValues old) eqn:E; [|done].
    by apply arraysEqual_spec in E. }
  unfold handleChange. fold hp. fold old. rewrite Hne. cbn [negb]. split.
  - intros cb ->. simpl. eexists. split; [done|].
    intros e (i & h & _ & He)%in_handle_calls.
    destruct (strict_neq (old !! i) (newValues !! i));
      [|by apply elem_of_nil in He].
    apply in_safeInvoke in He as (cb' & _ & ->). eauto.
  - intros i h cb Hh Hcb Hd. apply elem_of_app. right.
    eapply handle_calls_in; [exact Hh|].
    rewrite (proj2 (strict_neq_differ old newValues i) Hd), Hcb. simpl.
    by left.
Qed.

Lemma handleChange_reports_all_witness :
  ~ same_values [2; 3; 3]%Q
      (map value (getSortedInteractiveHandleProps three_push))
  /\ exists rest,
       handleChange three_push [2; 3; 3]%Q
       = SliderOnChange 1 [2; 3; 3]%Q :: rest.
Proof.
  assert (H : ~ same_values [2; 3; 3]%Q
                (map value (getSortedInteractiveHandleProps three_push))).
  { intros Hs. vm_compute in Hs.
    apply Forall2_cons_1 in Hs as [_ Hs].
    apply Forall2_cons_1 in Hs as [Hs _]. vm_compute in Hs. discriminate. }
  split; [exact H|].
  destruct (proj1 (handleChange_reports_all three_push [2; 3; 3]%Q H) 1%nat
              eq_refl) as (rest & Hrest & _).
  by exists rest.
Defined.

Lemma getNewHandleValues_length props v (k : nat) :
  (k < length (getSortedInteractiveHandleProps props))%nat ->
  exists r, getNewHandleValues props v k = Returns r
            /\ length r = length (getSortedInteractiveHandleProps props).
Proof.
  intros Hk.
  destruct (getNewHandleValues_spec props v k Hk)
    as (sorted & j & r & Hperm & _ & _ & Hr & Hcases).
  exists r. split; [done|].
  destruct Hcases as [[_ [Hlen _]]|(lock & y & _ & _ & _ & _ & [Hlen _])];
    rewrite Hlen.
  - by rewrite (Permutation_length Hperm), length_insert, length_map.
  - apply length_map.
Qed.

(** X7.  A release is reported whether or not anything has changed: the release
    handler of a rendered handle calls [props.onRelease], if there is one,
    first and with the reconciled array, and the [onRelease] of every handle
    that has one, each with its own entry of that array, which is a number
    and never [undefined]. *)
Theorem release_reports_all props v (k : nat) :
  let handleProps := getSortedInteractiveHandleProps props in
  (k < length handleProps)%nat ->
  exists r calls,
    getNewHandleValues props v k = Returns r
    /\ getHandlerForIndex props k (Some handleRelease) v = Returns calls
    /\ (forall cb, onRelease props = Some cb ->
          exists rest, calls = SliderOnRelease cb r :: rest)
    /\ (forall i h cb,
          handleProps !! i = Some h -> handle_onRelease h = Some cb ->
          exists y, r !! i = Some y
                    /\ HandleOnRelease i cb (Some y) ∈ calls).
Proof.
  intros hp Hk.
  destruct (getNewHandleValues_length props v k Hk) as (r & Hr & Hlen).
  exists r. eexists. split; [done|].
  unfold getHandlerForIndex. rewrite Hr. cbn [bind]. split; [done|].
  unfold handleRelease. fold hp. split.
  - intros cb ->. simpl. eauto.
  - intros i h cb Hh Hcb.
    assert (is_Some (r !! i)) as [y Hy].
    { apply lookup_lt_is_Some. rewrite Hlen. by eapply lookup_lt_Some. }
    exists y. split; [done|]. apply elem_of_app. right.
    eapply handle_calls_in; [exact Hh|]. rewrite Hcb, Hy. simpl. by left.
Qed.

Lemma release_reports_all_witness :
  (1 < length (getSortedInteractiveHandleProps three_push))%nat
  /\ exists r calls,
       getNewHandleValues three_push 5%Q 1 = Returns r
       /\ getHandlerForIndex three_push 1 (Some handleRelease) 5%Q
          = Returns calls
       /\ forall cb, onRelease three_push = Some cb ->
            exists rest, calls = SliderOnRelease cb r :: rest.
Proof.
  assert (H : (1 < length (getSortedInteractiveHandleProps three_push))%nat)
    by (vm_compute; lia).
  split; [exact H|].
  destruct (release_reports_all three_push 5%Q 1 H)
    as (r & calls & Hr & Hcalls & Hfirst & _).
  by exists r, calls.
Defined.

(** ** The loop of [renderLabels] *)





(** ** When a track event begins a movement *)

Lemma argMin_is_Some {T} (values : list T) argFn :
  is_Some (argMin values argFn) <-> values <> [].
Proof.
  destruct values; simpl; split; done.
Qed.

(** X14.  A press on the track begins the movement of a handle exactly when the
    slider is not disabled, the press did not come from inside a handle and
    there is a mounted handle; the same holds for a touch.  The handle moved
    is then one of the mounted ones. *)
Theorem track_event_begins_movement props handles event :
  (is_Some (maybeHandleTrackClick props handles event)
   <-> disabled props = false /\ target_in_handle event = false
       /\ handles <> [])
  /\ (is_Some (maybeHandleTrackTouch props handles event)
      <-> disabled props = false /\ target_in_handle event = false
          /\ handles <> [])
  /\ (forall handle,
        maybeHandleTrackClick props handles event = Some handle
        \/ maybeHandleTrackTouch props handles event = Some handle ->
        handle ∈ handles).
Proof.
  unfold maybeHandleTrackClick, maybeHandleTrackTouch, canHandleTrackEvent,
    nearestHandleForValue.
  destruct (disabled props), (target_in_handle event); simpl;
    try (split_and!; [split; [by intros [? ?]|by intros (? & ? & ?)]..
                     |by intros ? [?|?]]).
  split_and!.
  - rewrite argMin_is_Some. tauto.
  - rewrite argMin_is_Some. tauto.
  - intros handle Hsome.
    destruct handles as [|h0 handles]; [by destruct Hsome|].
    simpl in Hsome.
    destruct Hsome as [[= <-]|[= <-]];
      apply (argMin_from_least (handle_distance _) handles h0).
Qed.

Lemma track_event_begins_movement_witness :
  disabled three_push = false /\ target_in_handle track_event = false
  /\ [sample_mounted 2; sample_mounted 8]%Q <> []
  /\ is_Some (maybeHandleTrackClick three_push
                [sample_mounted 2; sample_mounted 8]%Q track_event).
Proof.
  assert (H : disabled three_push = false
              /\ target_in_handle track_event = false
              /\ [sample_mounted 2; sample_mounted 8]%Q <> [])
    by (split; [reflexivity|split; [reflexivity|discriminate]]).
  split; [exact (proj1 H)|]. split; [exact (proj1 (proj2 H))|].
  split; [exact (proj2 (proj2 H))|].
  exact (proj2 (proj1 (track_event_begins_movement three_push
                         [sample_mounted 2; sample_mounted 8]%Q track_event))
           H).
Defined.

(** ** Handles passed in order *)

Lemma StronglySorted_filter {A} (R : relation A) (P : A -> bool) l :
  StronglySorted R l -> StronglySorted R (List.filter P l).
Proof.
  induction 1 as [|x l _ IH Hx]; simpl; [constructor|].
  destruct (P x); [|done]. constructor; [done|].
  apply List.Forall_forall. intros y [Hy _]%List.filter_In.
  by eapply List.Forall_forall in Hx.
Qed.

(** X15.  When the parent passes its handle children in nondecreasing order of
    value, sorting leaves them where they are, handles of equal value
    included: the sorted index of an interactive handle, which is the index
    of its entry in the arrays given to [onChange] and [onRelease], is its
    position among the interactive handle children. *)
Theorem handles_in_order_stay props :
  sorted_by_value (child_handles (children props)) ->
  getSortedHandleProps props (fun _ => true) = child_handles (children props)
  /\ getSortedInteractiveHandleProps props
     = List.filter is_interactive (child_handles (children props)).
Proof.
  intros Hsorted. unfold getSortedInteractiveHandleProps.
  rewrite !getSortedHandleProps_filter, filter_all. split.
  - by apply array_sort_id.
  - apply array_sort_id. by apply StronglySorted_filter.
Qed.

Lemma handles_in_order_stay_witness :
  sorted_by_value (child_handles (children ordered_slider))
  /\ map (fun h => (value h, interactionKind h))
       (getSortedInteractiveHandleProps ordered_slider)
     = [(1%Q, Some PUSH); (5%Q, Some LOCK); (5%Q, Some PUSH)].
Proof.
  assert (H : sorted_by_value (child_handles (children ordered_slider))).
  { repeat constructor; vm_compute; discriminate. }
  split; [exact H|].
  by rewrite (proj2 (handles_in_order_stay ordered_slider H)).
Defined.
